(** * The SDL exporter of hiku's federation package

    A shallow embedding of [federation/sdl.py]: the type encoder
    [_encode_type], the default-value encoder [_encode_default_value], the
    directive-argument encoder [_encode_directive_arg_type], the [Exporter]
    visitor and the [_StripGraph] transformer, with the parts of
    [hiku/graph.py] they are written against. *)

From stdpp Require Import base option list strings gmap.
From Stdlib Require Import ZArith DecimalString.

Set Warnings "-register-all".

Open Scope string_scope.

(** ** Exceptions

    The only exception the module raises itself is [TypeError]; calling
    [None] raises one too, with the interpreter's message. A computation is
    either a returned value or a raised exception. *)

Inductive exn : Type :=
| TypeError (msg : string).

Inductive result (A : Type) : Type :=
| Ok (a : A)
| Raise (e : exn).

Arguments Ok {A} a.
Arguments Raise {A} e.

#[global] Instance result_ret : MRet result := fun A a => Ok a.
#[global] Instance result_bind : MBind result := fun A B f r =>
  match r with
  | Ok a => f a
  | Raise e => Raise e
  end.

Definition is_Ok {A} (r : result A) : bool :=
  match r with Ok _ => true | Raise _ => false end.

(** ** hiku.types

    The type expressions the encoder tells apart with [isinstance], in the
    order of its branches. [NoType] is Python's [None] (a field or option
    declared without a type); [Unsupported] stands for every other object,
    such as [Mapping], [Record] or [Callable] types, and carries its
    [repr]. *)

Inductive TypeExpr : Type :=
| Optional (__type__ : TypeExpr)
| TypeRef (__type_name__ : string)
| Integer
| String
| Boolean
| Sequence (__item_type__ : TypeExpr)
| Any
| Float
| NoType
| Unsupported (repr : string).

Definition is_Optional (t : TypeExpr) : bool :=
  match t with Optional _ => true | _ => false end.

(** The closed set of the data model: no [Unsupported] object anywhere. *)
Fixpoint supported (t : TypeExpr) : bool :=
  match t with
  | Optional t' => supported t'
  | Sequence t' => supported t'
  | Unsupported _ => false
  | _ => true
  end.

(** ** The values of the type encoder

    Python is untyped: the decorated [_encode] hands around strings, AST
    nodes and pairs [(val, True)]. [type_value] is the universe of these
    objects; the nodes are those of [graphql.language.ast]. *)

Inductive type_value : Type :=
| Str (s : string)
| Tuple (type_ : type_value) (optional : bool)
| NameNode (value : string)
| ListTypeNode (type : type_value)
| NonNullTypeNode (type : type_value).

(** [_name(value)]: a [NameNode], or [None] for [None]. *)
Definition _name (value : option string) : option type_value :=
  match value with
  | Some v => Some (NameNode v)
  | None => None
  end.

(** The keyword arguments of a call of [_encode]: [optional] is either not
    passed or passed with a value. *)
Definition kwargs : Type := option bool.

(** [kw.get('optional')], as a truth value. *)
Definition kw_get_optional (kw : kwargs) : bool :=
  match kw with
  | Some b => b
  | None => false
  end.

Module EncodeType.

(** [coerce(x)]: a string becomes [_name(x)], which is a [NameNode] since
    a string is not [None]; anything else is returned as it is. *)
Definition coerce (x : type_value) : type_value :=
  match x with
  | Str s => NameNode s
  | _ => x
  end.

Definition _non_null (val : type_value) : type_value :=
  NonNullTypeNode (coerce val).

(** The decorator [not_null]: the wrapper [dec] calls [func] with the
    arguments it received and post-processes what [func] returned. *)
Definition not_null (func : kwargs -> result type_value)
  : kwargs -> result type_value :=
  fun kw =>
    val ← func kw;
    match val with
    | Tuple type_ optional =>
        if optional then Ok (coerce type_) else Ok (_non_null type_)
    | _ =>
        if kw_get_optional kw then Ok (Tuple val true)
        else Ok (_non_null val)
    end.

(** The decorated [_encode]. Its body never reads its [optional]
    parameter: only the decorator looks at the keyword. The recursive
    calls go through the decorated function, and a list item through
    [_encode_type], which is [_encode(value)] without keyword. *)
Fixpoint _encode (val : TypeExpr) (kw : kwargs) {struct val}
  : result type_value :=
  not_null (fun _ =>
    match val with
    | Optional t => _encode t (Some true)
    | TypeRef n => Ok (Str n)
    | Integer => Ok (Str "Int")
    | String => Ok (Str "String")
    | Boolean => Ok (Str "Boolean")
    | Sequence item =>
        node ← _encode item None;
        Ok (ListTypeNode node)
    | Any => Ok (Str "Any")
    | Float => Ok (Str "Float")
    | NoType => Ok (Str "")
    | Unsupported r => Raise (TypeError ("Unsupported type: " ++ r))
    end) kw.

End EncodeType.

Definition _encode_type (value : TypeExpr) : result type_value :=
  EncodeType._encode value None.

(** Number of non-null wrappers stacked at the top of a type node. *)
Fixpoint non_null_depth (n : type_value) : nat :=
  match n with
  | NonNullTypeNode t => S (non_null_depth t)
  | _ => 0
  end.

(** The objects that are type nodes in the exporter's sense: names, lists
    and non-null wrappers, with no string or pair left inside. *)
Fixpoint is_type_node (n : type_value) : bool :=
  match n with
  | NameNode _ => true
  | ListTypeNode t => is_type_node t
  | NonNullTypeNode t => is_type_node t
  | _ => false
  end.

(** ** Default values

    The Python objects an option can carry as its default, told apart the
    way [_encode_default_value] does. [Nothing] is the sentinel of
    [hiku.graph]; [PyNone] is [None]. A float is kept as what the encoder
    observes of it: [math.isfinite] and its printed text (format [g] when
    finite). [PyIterable] is any iterable that is not a string, given by
    the sequence of its items; [PyObject] is any other object, given by its
    [inspect] text. *)

Record PyFloatRepr : Type := { isfinite : bool; float_text : string }.

Inductive Value : Type :=
| Nothing
| PyNone
| PyBool (b : bool)
| PyInt (z : Z)
| PyFloat (x : PyFloatRepr)
| PyStr (s : string)
| PyIterable (items : list Value)
| PyObject (inspect : string).

(** The objects the default-value encoder returns or puts into a node:
    [None], Python lists, and the value nodes of [graphql.language.ast]. *)
Inductive value_ast : Type :=
| VNone
| VList (items : list value_ast)
| NullValueNode
| BooleanValueNode (value : bool)
| IntValueNode (value : string)
| FloatValueNode (value : string)
| StringValueNode (value : string)
| ListValueNode (values : value_ast).

(** Truth value of an object, as [filter(None, ...)] tests it: [None] and
    the empty list are false, an AST node is true. *)
Definition truthy (v : value_ast) : bool :=
  match v with
  | VNone => false
  | VList [] => false
  | _ => true
  end.

(** The text of [format(value, 'd')]: decimal digits, with a minus sign
    for a negative number. *)
Definition format_d (z : Z) : string :=
  NilZero.string_of_int (Z.to_int z).

Fixpoint _encode_default_value (value : Value) : result value_ast :=
  match value with
  | Nothing => Ok VNone
  | PyNone => Ok NullValueNode
  | PyBool b => Ok (BooleanValueNode b)
  | PyInt z => Ok (IntValueNode (format_d z))
  | PyFloat x =>
      if isfinite x then Ok (FloatValueNode (float_text x))
      else Raise (TypeError
                    ("Cannot convert value to AST: " ++ float_text x ++ "."))
  | PyStr s => Ok (StringValueNode s)
  | PyIterable items =>
      maybe_value_nodes ← mapM _encode_default_value items;
      let value_nodes := filter (λ v, truthy v) maybe_value_nodes in
      Ok (ListValueNode (VList [VList value_nodes]))
  | PyObject r =>
      Raise (TypeError ("Cannot convert value to AST: " ++ r ++ "."))
  end.

(** Whether a value is the sentinel. *)
Definition is_Nothing (v : Value) : bool :=
  match v with Nothing => true | _ => false end.

(** ** Directives and their argument types *)

(** Modelled from the spec: the type descriptors of
    [hiku.introspection.types], which this module imports. [SCALAR] carries
    the name of a scalar kind and [NON_NULL] wraps another descriptor;
    [OtherKind] is any descriptor that is neither (a list or an object
    kind), given by its [repr]. *)
Inductive ArgType : Type :=
| NON_NULL (of_type : ArgType)
| SCALAR (name : string)
| OtherKind (repr : string).

(** Modelled from the spec: [Arg] of [hiku.introspection.directive], the
    argument of a directive: a name, a type descriptor and a value. *)
Record Arg : Type :=
  { arg_name : string; arg_type : ArgType; arg_value : string }.

(** Modelled from the spec: [Directive] of the same module, a name and
    the sequence of its arguments. *)
Record Directive : Type :=
  { directive_name : string; directive_args : list Arg }.

(** The classes of value nodes [_encode_directive_arg_type] can return. *)
Inductive value_node_class : Type :=
| StringValueNodeClass.

Module EncodeDirectiveArgType.

(** The inner [_encode]: it has a single [if] and no [else], so any
    other name falls off the end of the function and yields [None]. *)
Definition _encode (val : string) : option value_node_class :=
  if String.eqb val "String" then Some StringValueNodeClass else None.

End EncodeDirectiveArgType.

Fixpoint _encode_directive_arg_type (value : ArgType)
  : result (option value_node_class) :=
  match value with
  | NON_NULL of_type => _encode_directive_arg_type of_type
  | SCALAR name => Ok (EncodeDirectiveArgType._encode name)
  | OtherKind r => Raise (TypeError ("Unsupported arg type: " ++ r))
  end.

(** Calling what [_encode_directive_arg_type] returned with
    [value=arg.value]: a class builds its node, [None] is not callable. *)
Definition call_node_class (cls : option value_node_class) (value : string)
  : result value_ast :=
  match cls with
  | Some StringValueNodeClass => Ok (StringValueNode value)
  | None => Raise (TypeError "'NoneType' object is not callable")
  end.

(** ** The graph model *)

(** [Option] of [hiku/graph.py]: [name], [type] and [default], with the
    [description] the exporter reads from it. *)
Record Option : Type :=
  { option_name : string;
    option_type : TypeExpr;
    option_default : Value;
    option_description : option string }.

(** [Field] of [hiku/graph.py], with the [directives] the exporter reads
    from it. [func] is the resolver, an opaque handle here. *)
Record Field : Type :=
  { field_name : string;
    field_type : TypeExpr;
    field_func : nat;
    field_options : list Option;
    field_description : option string;
    field_directives : list Directive }.

(** [Link] of [hiku/graph.py]; [edge] names the target and [requires]
    the field it depends on, neither of which is exported. *)
Record Link : Type :=
  { link_name : string;
    link_type : TypeExpr;
    link_func : nat;
    link_edge : string;
    link_requires : option string;
    link_options : list Option;
    link_description : option string }.

(** What a node holds in its [fields]: fields and links. [accept] makes a
    [Field] call [visit_field] and a [Link] call [visit_link]. *)
Inductive Member : Type :=
| AField (f : Field)
| ALink (l : Link).

Definition member_name (m : Member) : string :=
  match m with
  | AField f => field_name f
  | ALink l => link_name l
  end.

(** Modelled from the spec: the class [Node], which [hiku/graph.py] at
    hand does not define (it has the older [Edge]): a name that can be
    [None], ordered fields, a description and directives. *)
Record Node : Type :=
  { node_name : option string;
    node_fields : list Member;
    node_description : option string;
    node_directives : list Directive }.

(** [Root(items)]: an edge built with the name [None]. *)
Record Root : Type :=
  { root_fields : list Member }.

(** Modelled from the spec: what a graph holds in its [items], by class.
    The class decides the double dispatch of [accept]: a [Node] calls
    [visit_node] and the [Root] calls [visit_root], the two methods this
    module overrides. *)
Inductive Item : Type :=
| ANode (n : Node)
| ARoot (r : Root).

Definition item_name (i : Item) : option string :=
  match i with
  | ANode n => node_name n
  | ARoot _ => None
  end.

Definition item_fields (i : Item) : list Member :=
  match i with
  | ANode n => node_fields n
  | ARoot r => root_fields r
  end.

(** [fields_map]: the dictionary from field name to field. *)
Definition fields_map (i : Item) : gmap string Member :=
  list_to_map (reverse ((fun f => (member_name f, f)) <$> item_fields i)).

(** A record type of [hiku.types]: its [__field_types__], an ordered
    dictionary, as the sequence of its entries. *)
Definition Record_ : Type := list (string * TypeExpr).

(** Modelled from the spec: [Graph(items, data_types)]; the [Graph] of
    [hiku/graph.py] at hand stores [items] only. [data_types] is a
    dictionary iterated in insertion order, kept as the sequence of its
    entries. *)
Record Graph : Type :=
  { items : list Item;
    data_types : list (string * Record_) }.

(** ** The schema AST

    The definition nodes of [graphql.language.ast] the exporter builds. A
    keyword the exporter does not pass is left [None] by the node's
    constructor. *)

Inductive argument_node : Type :=
| ArgumentNode (name : option type_value) (value : value_ast).

Inductive directive_node : Type :=
| DirectiveNode (name : option type_value) (arguments : list argument_node).

Inductive input_value_definition : Type :=
| InputValueDefinitionNode (name : option type_value)
    (description : option string) (type : type_value)
    (default_value : value_ast).

Inductive field_definition : Type :=
| FieldDefinitionNode (name : option type_value) (type : type_value)
    (arguments : option (list input_value_definition))
    (directives : option (list directive_node)).

Inductive definition : Type :=
| ScalarTypeDefinitionNode (name : option type_value)
| ObjectTypeDefinitionNode (name : option type_value)
    (fields : list field_definition)
    (directives : option (list directive_node))
| ObjectTypeExtensionNode (name : option type_value)
    (fields : list field_definition)
    (directives : list directive_node).

Record DocumentNode : Type := { definitions : list definition }.

Definition field_definition_name (d : field_definition)
  : option type_value :=
  match d with FieldDefinitionNode name _ _ _ => name end.

(** ** The exporter

    [visit] is the double dispatch of [GraphVisitor]: [obj.accept(self)]
    calls the method of the visitor for the class of [obj]. A list
    comprehension evaluates its items in order and stops at the first
    exception, which is what [mapM] does. *)

Module Exporter.

Definition visit_option (obj : Option) : result input_value_definition :=
  type ← _encode_type (option_type obj);
  default_value ← _encode_default_value (option_default obj);
  Ok (InputValueDefinitionNode (_name (Some (option_name obj)))
        (option_description obj) type default_value).

Definition visit_directive_arg (arg : Arg) : result argument_node :=
  cls ← _encode_directive_arg_type (arg_type arg);
  value ← call_node_class cls (arg_value arg);
  Ok (ArgumentNode (_name (Some (arg_name arg))) value).

Definition visit_directive (obj : Directive) : result directive_node :=
  arguments ← mapM visit_directive_arg (directive_args obj);
  Ok (DirectiveNode (_name (Some (directive_name obj))) arguments).

Definition visit_field (obj : Field) : result field_definition :=
  type ← _encode_type (field_type obj);
  arguments ← mapM visit_option (field_options obj);
  directives ← mapM visit_directive (field_directives obj);
  Ok (FieldDefinitionNode (_name (Some (field_name obj))) type
        (Some arguments) (Some directives)).

Definition visit_link (obj : Link) : result field_definition :=
  arguments ← mapM visit_option (link_options obj);
  type ← _encode_type (link_type obj);
  Ok (FieldDefinitionNode (_name (Some (link_name obj))) type
        (Some arguments) None).

(** [visit] on what a node holds. *)
Definition visit_member (m : Member) : result field_definition :=
  match m with
  | AField f => visit_field f
  | ALink l => visit_link l
  end.

Definition visit_node (obj : Node) : result definition :=
  fields ← mapM visit_member (node_fields obj);
  directives ← mapM visit_directive (node_directives obj);
  Ok (ObjectTypeDefinitionNode (_name (node_name obj)) fields
        (Some directives)).

Definition visit_root (obj : Root) : result definition :=
  fields ← mapM visit_member (root_fields obj);
  Ok (ObjectTypeExtensionNode (_name (Some "Query")) fields []).

(** [visit] on what a graph holds. *)
Definition visit_item (i : Item) : result definition :=
  match i with
  | ANode n => visit_node n
  | ARoot r => visit_root r
  end.

Definition new_field (name : string) (type_ : TypeExpr)
  : result field_definition :=
  type ← _encode_type type_;
  Ok (FieldDefinitionNode (_name (Some name)) type None None).

Definition visit_record (type_name : string) (obj : Record_)
  : result definition :=
  fields ← mapM (fun '(f_name, field) => new_field f_name field) obj;
  Ok (ObjectTypeDefinitionNode (_name (Some type_name)) fields None).

Definition get_any_type : definition :=
  ScalarTypeDefinitionNode (_name (Some "Any")).

Definition visit_graph (obj : Graph) : result (list definition) :=
  records ← mapM (fun '(type_name, type_) => visit_record type_name type_)
              (data_types obj);
  nodes ← mapM visit_item (items obj);
  Ok (get_any_type :: records ++ nodes).

End Exporter.

(** ** The transformer that strips introspection *)

(** Modelled from the spec: the defaults of [GraphTransformer], the base
    class of [_StripGraph], which [hiku/graph.py] at hand does not define:
    each rebuilds an entity of the same kind from the visited children. *)
Module GraphTransformer.

Definition visit_option (obj : Option) : Option :=
  {| option_name := option_name obj;
     option_type := option_type obj;
     option_default := option_default obj;
     option_description := option_description obj |}.

Definition visit_field (obj : Field) : Field :=
  {| field_name := field_name obj;
     field_type := field_type obj;
     field_func := field_func obj;
     field_options := visit_option <$> field_options obj;
     field_description := field_description obj;
     field_directives := field_directives obj |}.

Definition visit_link (obj : Link) : Link :=
  {| link_name := link_name obj;
     link_type := link_type obj;
     link_func := link_func obj;
     link_edge := link_edge obj;
     link_requires := link_requires obj;
     link_options := visit_option <$> link_options obj;
     link_description := link_description obj |}.

Definition visit_member (m : Member) : Member :=
  match m with
  | AField f => AField (visit_field f)
  | ALink l => ALink (visit_link l)
  end.

End GraphTransformer.

(** Python's [x in [a, b, ...]] on strings. *)
Definition str_in (x : string) (l : list string) : bool :=
  existsb (String.eqb x) l.

Module _StripGraph.

Definition root_skip (field : Member) : bool :=
  str_in (member_name field) ["__typename"; "_entities"].

Definition visit_root (obj : Root) : Root :=
  {| root_fields :=
       GraphTransformer.visit_member
         <$> filter (λ f, ¬ root_skip f) (root_fields obj) |}.

Definition node_skip (field : Member) : bool :=
  str_in (member_name field) ["__typename"].

Definition visit_node (obj : Node) : Node :=
  {| node_name := node_name obj;
     node_fields :=
       GraphTransformer.visit_member
         <$> filter (λ f, ¬ node_skip f) (node_fields obj);
     node_description := node_description obj;
     node_directives := node_directives obj |}.

(** [visit] on what a graph holds. *)
Definition visit_item (i : Item) : Item :=
  match i with
  | ANode n => ANode (visit_node n)
  | ARoot r => ARoot (visit_root r)
  end.

Definition graph_skip (node : Item) : bool :=
  match item_name node with
  | None => bool_decide (is_Some (fields_map node !! "__schema"))
  | Some name => String.prefix "__" name
  end.

Definition visit_graph (obj : Graph) : Graph :=
  {| items :=
       visit_item <$> filter (λ n, ¬ graph_skip n) (items obj);
     data_types := data_types obj |}.

End _StripGraph.

Definition get_ast (graph : Graph) : result DocumentNode :=
  let graph := _StripGraph.visit_graph graph in
  definitions ← Exporter.visit_graph graph;
  Ok {| definitions := definitions |}.

(** ** What the exporter can encode

    The inputs on which no encoder raises: the type expressions of the
    closed set, the default values every branch of
    [_encode_default_value] accepts, and the directive arguments of the
    one scalar kind that has a node class. *)

Fixpoint encodable (v : Value) : bool :=
  match v with
  | PyFloat x => isfinite x
  | PyIterable items => forallb encodable items
  | PyObject _ => false
  | _ => true
  end.

Fixpoint string_kind (t : ArgType) : bool :=
  match t with
  | NON_NULL of_type => string_kind of_type
  | SCALAR name => String.eqb name "String"
  | OtherKind _ => false
  end.

Definition exportable_option (o : Option) : bool :=
  supported (option_type o) && encodable (option_default o).

Definition exportable_directive (d : Directive) : bool :=
  forallb (fun a => string_kind (arg_type a)) (directive_args d).

Definition exportable_member (m : Member) : bool :=
  match m with
  | AField f =>
      supported (field_type f)
      && forallb exportable_option (field_options f)
      && forallb exportable_directive (field_directives f)
  | ALink l =>
      supported (link_type l) && forallb exportable_option (link_options l)
  end.

Definition exportable_item (i : Item) : bool :=
  match i with
  | ANode n =>
      forallb exportable_member (node_fields n)
      && forallb exportable_directive (node_directives n)
  | ARoot r => forallb exportable_member (root_fields r)
  end.

Definition exportable_graph (g : Graph) : bool :=
  forallb (fun e => forallb (fun f => supported f.2) e.2) (data_types g)
  && forallb exportable_item (items g).

(** What the exporter emits for an entry of [data_types]: an object type
    named after the entry, with one field per entry of the record, in the
    record's order, without arguments or directives. *)
Definition exports_record (e : string * Record_) (d : definition) : Prop :=
  ∃ fields,
    d = ObjectTypeDefinitionNode (Some (NameNode e.1)) fields None ∧
    Forall2 (λ f fd, ∃ t, _encode_type f.2 = Ok t ∧
                          fd = FieldDefinitionNode (Some (NameNode f.1)) t
                                 None None)
      e.2 fields.

(** What the exporter emits for a field or a link: the field definition
    [visit] returns for it, which carries its name. *)
Definition exports_member (m : Member) (fd : field_definition) : Prop :=
  Exporter.visit_member m = Ok fd ∧
  field_definition_name fd = Some (NameNode (member_name m)).

(** What the exporter emits for an item of the graph: for the root an
    extension of the type [Query], for a node an object type of the
    node's name; in both, one field definition per member, in the
    members' order. *)
Definition exports_item (i : Item) (d : definition) : Prop :=
  match i with
  | ARoot r =>
      ∃ fields,
        d = ObjectTypeExtensionNode (Some (NameNode "Query")) fields [] ∧
        Forall2 exports_member (root_fields r) fields
  | ANode n =>
      ∃ fields directives,
        d = ObjectTypeDefinitionNode (_name (node_name n)) fields
              (Some directives) ∧
        Forall2 exports_member (node_fields n) fields
  end.

(** The items the stripping is meant to drop: a node whose name starts
    with two underscores, and a nameless edge with a field named
    [__schema]. *)
Definition introspection_item (i : Item) : Prop :=
  match item_name i with
  | Some name => String.prefix "__" name = true
  | None => "__schema" ∈ member_name <$> item_fields i
  end.

#[global] Instance introspection_item_dec i : Decision (introspection_item i).
Proof. unfold introspection_item. destruct (item_name i); apply _. Defined.

(** A graph with a root field [version] of type [String] and a node
    [User] with the fields [id], an [Integer], and [name], an optional
    [String]. *)
Definition sample_field (name : string) (type : TypeExpr) : Member :=
  AField {| field_name := name; field_type := type; field_func := 0;
            field_options := []; field_description := None;
            field_directives := [] |}.

Definition sample_graph : Graph :=
  {| items :=
       [ ARoot {| root_fields := [sample_field "version" String] |};
         ANode {| node_name := Some "User";
                  node_fields := [sample_field "id" Integer;
                                  sample_field "name" (Optional String)];
                  node_description := None;
                  node_directives := [] |} ];
     data_types := [("Point", [("x", Integer); ("y", Optional Float)])] |}.

(** A graph as the introspection machinery leaves it: the root carries
    [__typename] and [_entities], a node carries [__typename], and there
    are a node [__Type] and a nameless edge with the field [__schema]. *)
Definition sample_introspection_graph : Graph :=
  {| items :=
       [ ARoot {| root_fields := [sample_field "__typename" String;
                                  sample_field "version" String;
                                  sample_field "_entities" Any] |};
         ANode {| node_name := Some "__Type";
                  node_fields := [sample_field "kind" String];
                  node_description := None;
                  node_directives := [] |};
         ARoot {| root_fields := [sample_field "__schema" Any] |};
         ANode {| node_name := Some "User";
                  node_fields := [sample_field "__typename" String;
                                  sample_field "id" Integer];
                  node_description := None;
                  node_directives := [] |} ];
     data_types := [("Point", [("x", Integer)])] |}.

(** ** The rest of the two modules *)

(** A node is well formed as a GraphQL type when it holds no string or
    pair and no non-null wrapper sits directly on another one. *)
Fixpoint well_formed_type (n : type_value) : bool :=
  match n with
  | NameNode _ => true
  | ListTypeNode t => well_formed_type t
  | NonNullTypeNode t =>
      match t with
      | NonNullTypeNode _ => false
      | _ => well_formed_type t
      end
  | _ => false
  end.

(** What [_encode_option_type] returns: a [NamedTypeNode] around a name,
    or a node of the kinds [_encode_type] builds. *)
Inductive option_type_value : Type :=
| NamedTypeNode (name : option type_value)
| TypeNode (node : type_value).

Section option_type.

(** The [repr] of a type object, which [hiku.types] defines; the encoder
    only prints it in its error message. *)
Variable type_repr : TypeExpr → string.

Fixpoint _encode_option_type (value : TypeExpr) : result option_type_value :=
  match value with
  | Integer => Ok (NamedTypeNode (_name (Some "Int")))
  | String => Ok (NamedTypeNode (_name (Some "String")))
  | Optional t => _encode_option_type t
  | Sequence item =>
      node ← _encode_type item;
      Ok (TypeNode (ListTypeNode node))
  | _ => Raise (TypeError ("Unsupported option type: " ++ type_repr value))
  end.

End option_type.

(** The type expression below every [Optional] at the top. *)
Fixpoint strip_Optional (t : TypeExpr) : TypeExpr :=
  match t with
  | Optional t' => strip_Optional t'
  | _ => t
  end.

(** The descriptor below every [NON_NULL] at the top. *)
Fixpoint strip_NON_NULL (t : ArgType) : ArgType :=
  match t with
  | NON_NULL of_type => strip_NON_NULL of_type
  | _ => t
  end.

(** [OrderedDict(pairs)], as far as lookups go: a later pair overwrites an
    earlier one with the same key. *)
Definition dict_of_pairs {V} (pairs : list (string * V)) : gmap string V :=
  list_to_map (reverse pairs).

(** [Field.options_map] and [Link.options_map]. *)
Definition options_map (f : Field) : gmap string Option :=
  dict_of_pairs ((λ op, (option_name op, op)) <$> field_options f).

Definition link_options_map (l : Link) : gmap string Option :=
  dict_of_pairs ((λ op, (option_name op, op)) <$> link_options l).

(** [Graph.root]: the root made of the fields of every nameless item, in
    the order of the items. *)
Definition root (g : Graph) : Root :=
  {| root_fields :=
       mjoin (item_fields <$> filter (λ e, item_name e = None) (items g)) |}.

(** [Graph.edges]: the items that have a name. *)
Definition edges (g : Graph) : list Item :=
  filter (λ e, item_name e ≠ None) (items g).

(** [Graph.edges_map]: the dictionary from name to item, over [edges]. *)
Definition edges_map (g : Graph) : gmap string Item :=
  dict_of_pairs (omap (λ e, (λ name, (name, e)) <$> item_name e) (edges g)).

(** Access to the parts of the nodes the exporter builds. *)
Definition input_value_type (d : input_value_definition) : type_value :=
  match d with InputValueDefinitionNode _ _ type _ => type end.

Definition input_value_default_value (d : input_value_definition)
  : value_ast :=
  match d with InputValueDefinitionNode _ _ _ default_value => default_value end.

Definition input_value_name (d : input_value_definition)
  : option type_value :=
  match d with InputValueDefinitionNode name _ _ _ => name end.

Definition field_definition_arguments (d : field_definition)
  : list input_value_definition :=
  match d with FieldDefinitionNode _ _ arguments _ => default [] arguments end.

Definition field_definition_type (d : field_definition) : type_value :=
  match d with FieldDefinitionNode _ type _ _ => type end.

Definition field_definition_directives (d : field_definition)
  : option (list directive_node) :=
  match d with FieldDefinitionNode _ _ _ directives => directives end.


Definition definition_fields (d : definition) : list field_definition :=
  match d with
  | ScalarTypeDefinitionNode _ => []
  | ObjectTypeDefinitionNode _ fields _ => fields
  | ObjectTypeExtensionNode _ fields _ => fields
  end.

(** Every type node of a definition: the types of its fields and of their
    arguments. *)
Definition field_definition_types (d : field_definition)
  : list type_value :=
  field_definition_type d
    :: (input_value_type <$> field_definition_arguments d).

Definition definition_types (d : definition) : list type_value :=
  definition_fields d ≫= field_definition_types.

Definition member_type (m : Member) : TypeExpr :=
  match m with
  | AField f => field_type f
  | ALink l => link_type l
  end.

Definition member_options (m : Member) : list Option :=
  match m with
  | AField f => field_options f
  | ALink l => link_options l
  end.

(** The fields the stripping is meant to drop from an item: [__typename]
    from any item, and [_entities] from the root as well. *)
Definition reserved_field (i : Item) (m : Member) : Prop :=
  match i with
  | ANode _ => member_name m = "__typename"
  | ARoot _ => member_name m = "__typename" ∨ member_name m = "_entities"
  end.

#[global] Instance reserved_field_dec i m : Decision (reserved_field i m).
Proof. destruct i; simpl; apply _. Defined.

(** A graph with nothing to strip. *)
Definition clean_item (i : Item) : Prop :=
  ¬ introspection_item i ∧ Forall (λ m, ¬ reserved_field i m) (item_fields i).

Definition clean_graph (g : Graph) : Prop := Forall clean_item (items g).

(** A graph whose introspection items carry what the exporter cannot
    encode. *)
Definition sample_unsupported_graph : Graph :=
  {| items :=
       [ ARoot {| root_fields :=
                    [sample_field "version" String;
                     sample_field "_entities" (Unsupported "Union")] |};
         ANode {| node_name := Some "__Type";
                  node_fields := [sample_field "kind" (Unsupported "Enum")];
                  node_description := None;
                  node_directives := [] |} ];
     data_types := [] |}.

(** * Properties *)

(** ** The result monad *)

Lemma bind_Ok_inv {A B} (r : result A) (f : A → result B) (b : B) :
  r ≫= f = Ok b → ∃ a, r = Ok a ∧ f a = Ok b.
Proof. destruct r as [a|e]; [eauto | discriminate]. Qed.

Section mapM_result.
Context {A B : Type}.
Implicit Types (f : A → result B) (l : list A) (k : list B).

Lemma mapM_Ok_1 f l k : mapM f l = Ok k → Forall2 (λ x y, f x = Ok y) l k.
Proof.
  revert k. induction l as [|x l IH]; intros k; simpl.
  - intros [= <-]. constructor.
  - intros (y & Hy & H)%bind_Ok_inv.
    apply bind_Ok_inv in H as (k' & Hk' & [= <-]).
    constructor; auto.
Qed.

Lemma mapM_Ok_2 f l k : Forall2 (λ x y, f x = Ok y) l k → mapM f l = Ok k.
Proof. induction 1 as [|x y l k Hxy _ IH]; simpl; [done|]. by rewrite Hxy, IH. Qed.

Lemma mapM_Ok f l k : mapM f l = Ok k ↔ Forall2 (λ x y, f x = Ok y) l k.
Proof. split; [apply mapM_Ok_1 | apply mapM_Ok_2]. Qed.

Lemma mapM_is_Ok f l :
  Forall (λ x, is_Ok (f x) = true) l → is_Ok (mapM f l) = true.
Proof.
  induction 1 as [|x l Hx _ IH]; simpl; [done|].
  destruct (f x); [|done]. simpl. by destruct (mapM f l).
Qed.
End mapM_result.

(** ** The type encoder *)

Section encode_type.
Import EncodeType.

Lemma not_null_is_Ok func kw :
  is_Ok (func kw) = true → is_Ok (not_null func kw) = true.
Proof.
  unfold not_null. destruct (func kw) as [val|]; [|done]. intros _. simpl.
  destruct val as [| ? []| | |]; simpl; by destruct (kw_get_optional kw).
Qed.

(** On the closed set of type expressions the encoder returns. *)
Lemma encode_supported v :
  supported v = true → ∀ kw, is_Ok (_encode v kw) = true.
Proof.
  induction v as [t IH|n| | | |item IH| | | |r]; simpl; intros Hs kw;
    try (unfold not_null; simpl; by destruct (kw_get_optional kw));
    try done.
  - apply (not_null_is_Ok (λ _, _encode t (Some true))). by apply IH.
  - apply (not_null_is_Ok
             (λ _, node ← _encode item None; Ok (ListTypeNode node))).
    specialize (IH Hs None). by destruct (_encode item None).
Qed.

(** What the decorated function hands back is a type node, or, when the
    keyword was passed, possibly a pair whose first component coerces to
    one. *)
Lemma encode_wf v : ∀ kw r,
  _encode v kw = Ok r →
  match r with
  | Tuple x _ => kw_get_optional kw = true ∧ is_type_node (coerce x) = true
  | _ => is_type_node r = true
  end.
Proof.
  induction v as [t IH|n| | | |item IH| | | |r']; simpl; intros kw r;
    try (unfold not_null; simpl;
         destruct (kw_get_optional kw) eqn:?; intros [= <-]; by simpl);
    try done.
  - unfold not_null. intros (val & Hval & H)%bind_Ok_inv.
    specialize (IH _ _ Hval).
    destruct val as [s|x b|s|ty|ty]; try done.
    + destruct IH as [_ IH]. destruct b; injection H as <-.
      * by destruct (coerce x).
      * done.
    + destruct (kw_get_optional kw); by injection H as <-.
    + destruct (kw_get_optional kw); by injection H as <-.
    + destruct (kw_get_optional kw); by injection H as <-.
  - unfold not_null. intros (val & Hval & H)%bind_Ok_inv.
    apply bind_Ok_inv in Hval as (node & Hnode & [= <-]).
    specialize (IH _ _ Hnode).
    assert (is_type_node node = true) as Hn.
    { destruct node; try done. by destruct IH. }
    destruct (kw_get_optional kw); by injection H as <-.
Qed.

Lemma encode_type_is_type_node v n :
  _encode_type v = Ok n → is_type_node n = true.
Proof.
  intros H. pose proof (encode_wf _ _ _ H) as Hwf.
  destruct n; try done. by destruct Hwf.
Qed.

(** Below a second [Optional] the flag is lost: the inner call resolves
    the pair, and the outer one, called without the keyword, wraps
    again. *)
Lemma encode_type_Optional_Optional T n :
  is_Optional T = false →
  _encode_type (Optional T) = Ok n →
  _encode_type (Optional (Optional T)) = Ok (NonNullTypeNode n).
Proof.
  unfold _encode_type.
  destruct T as [t|s| | | |item| | | |r]; try done; simpl;
    try (by intros _ [= <-]).
  intros _. destruct (_encode item None) as [node|]; simpl; [|done].
  by intros [= <-].
Qed.

End encode_type.

(** A third [Optional] brings the nullable node back: the keyword of the
    outermost call is what decides, one level at a time. *)
Example encode_type_Optional_thrice :
  _encode_type (Optional (Optional (Optional Integer))) = Ok (NameNode "Int").
Proof. reflexivity. Qed.

(** C1: for a type expression that is not an [Optional], what the type
    encoder returns is a non-null wrapper applied once, at the top: the
    node is [NonNullTypeNode t] with [t] a name or a list and not itself
    a non-null wrapper. On the closed set of type expressions the encoder
    does return. *)
Theorem encode_type_non_optional (v : TypeExpr) :
  is_Optional v = false →
  (supported v = true → is_Ok (_encode_type v) = true) ∧
  (∀ n, _encode_type v = Ok n →
        ∃ t, n = NonNullTypeNode t ∧ non_null_depth t = 0
             ∧ is_type_node n = true).
Proof.
  intros Hv. split.
  - intros Hs. by apply encode_supported.
  - intros n Hn. pose proof (encode_type_is_type_node _ _ Hn) as Hwf.
    revert Hn. unfold _encode_type.
    destruct v as [t|s| | | |item| | | |r]; try done; simpl;
      try (intros [= <-]; eexists; by repeat split).
    destruct (EncodeType._encode item None) as [node|]; simpl; [|done].
    intros [= <-]. eexists; by repeat split.
Qed.

Lemma encode_type_non_optional_witness :
  is_Ok (_encode_type (Sequence Integer)) = true ∧
  ∃ t, _encode_type (Sequence Integer) = Ok (NonNullTypeNode t)
       ∧ non_null_depth t = 0.
Proof.
  destruct (encode_type_non_optional (Sequence Integer) eq_refl) as [H1 H2].
  split; [by apply H1|].
  destruct (H2 _ eq_refl) as (t & Ht & Hd & _).
  exists t. split; [by rewrite <- Ht | exact Hd].
Defined.

(** C2: on [Optional(Optional(Integer))] the encoder returns a non-null
    [Int], and on [Optional(Integer)] a nullable one: the two differ. *)
Theorem encode_type_Optional_Optional_Integer :
  _encode_type (Optional (Optional Integer))
    = Ok (NonNullTypeNode (NameNode "Int")) ∧
  _encode_type (Optional Integer) = Ok (NameNode "Int") ∧
  _encode_type (Optional (Optional Integer)) ≠ _encode_type (Optional Integer).
Proof. by repeat split. Qed.

(** C3: the item of a list is encoded by a fresh call of the type encoder
    on the item alone, whether or not the list is optional;
    [Sequence(Optional(Integer))] is a non-null list of nullable [Int] and
    [Optional(Sequence(Integer))] a nullable list of non-null [Int]. *)
Theorem encode_type_Sequence (item : TypeExpr) :
  _encode_type (Sequence item)
    = (n ← _encode_type item; Ok (NonNullTypeNode (ListTypeNode n))) ∧
  _encode_type (Optional (Sequence item))
    = (n ← _encode_type item; Ok (ListTypeNode n)) ∧
  _encode_type (Sequence (Optional Integer))
    = Ok (NonNullTypeNode (ListTypeNode (NameNode "Int"))) ∧
  _encode_type (Optional (Sequence Integer))
    = Ok (ListTypeNode (NonNullTypeNode (NameNode "Int"))).
Proof.
  unfold _encode_type. repeat split; simpl;
    by destruct (EncodeType._encode item None).
Qed.

(** ** The default-value encoder *)

Lemma Value_ind_nested (P : Value → Prop) :
  P Nothing → P PyNone → (∀ b, P (PyBool b)) → (∀ z, P (PyInt z)) →
  (∀ x, P (PyFloat x)) → (∀ s, P (PyStr s)) →
  (∀ items, Forall P items → P (PyIterable items)) →
  (∀ r, P (PyObject r)) →
  ∀ v, P v.
Proof.
  intros HN Hn Hb Hz Hf Hs Hi Ho. fix IH 1.
  intros [| | b | z | x | s | items | r];
    [exact HN | exact Hn | apply Hb | apply Hz | apply Hf | apply Hs
    | | apply Ho].
  apply Hi. induction items as [|v items IHitems]; constructor.
  - apply IH.
  - exact IHitems.
Qed.

Lemma forallb_Forall_true {A} (f : A → bool) (l : list A) :
  forallb f l = true → Forall (λ x, f x = true) l.
Proof.
  induction l as [|x l IH]; simpl; [constructor|].
  intros [Hx Hl]%andb_prop. constructor; auto.
Qed.

Lemma encode_default_value_iterable items :
  _encode_default_value (PyIterable items)
  = (maybe_value_nodes ← mapM _encode_default_value items;
     Ok (ListValueNode (VList [VList (filter (λ v, truthy v)
                                        maybe_value_nodes)]))).
Proof. reflexivity. Qed.

(** The only encoded value the filter drops is the [None] that encodes
    the sentinel. *)
Lemma encode_default_value_truthy v n :
  _encode_default_value v = Ok n → (truthy n = false ↔ v = Nothing).
Proof.
  destruct v as [| | b | z | x | s | items | r]; simpl;
    try (intros [= <-]; by split); try done.
  - destruct (isfinite x); [intros [= <-]; by split | done].
  - intros (k & _ & [= <-])%bind_Ok_inv. by split.
Qed.

(** What the encoder returns for an iterable: the items other than the
    sentinel, encoded in order, inside a list that is itself the single
    element of [values]. *)
Lemma encode_default_value_iterable_nodes items r :
  _encode_default_value (PyIterable items) = Ok r →
  ∃ value_nodes,
    mapM _encode_default_value (filter (λ v, ¬ is_Nothing v) items)
    = Ok value_nodes ∧
    r = ListValueNode (VList [VList value_nodes]).
Proof.
  rewrite encode_default_value_iterable.
  intros (maybe_value_nodes & Hm & [= <-])%bind_Ok_inv.
  eexists. split; [|reflexivity].
  apply mapM_Ok in Hm. apply mapM_Ok.
  induction Hm as [|v n items nodes Hv _ IH]; [constructor|].
  pose proof (encode_default_value_truthy _ _ Hv) as Ht.
  destruct (truthy n) eqn:Hn.
  - rewrite (filter_cons_True _ n) by by rewrite Hn.
    rewrite filter_cons_True.
    + by constructor.
    + intros Hnot. destruct v; try done. destruct Ht as [_ Ht].
      specialize (Ht eq_refl). congruence.
  - rewrite (filter_cons_False _ n) by (rewrite Hn; intros []).
    destruct Ht as [Ht _]. rewrite (Ht eq_refl).
    rewrite filter_cons_False; [exact IH | simpl; tauto].
Qed.

Lemma encode_default_value_encodable v :
  encodable v = true → is_Ok (_encode_default_value v) = true.
Proof.
  induction v as [| | b | z | x | s | items IH | r] using Value_ind_nested;
    try done.
  - simpl. by intros ->.
  - intros Hs. rewrite encode_default_value_iterable.
    assert (is_Ok (mapM _encode_default_value items) = true) as Hm.
    { apply mapM_is_Ok. simpl in Hs. apply forallb_Forall_true in Hs.
      revert Hs. clear -IH. induction IH; inversion 1; constructor; auto. }
    by destruct (mapM _encode_default_value items).
Qed.

(** C7: the sentinel [Nothing] is encoded as no node at all, [None] as a
    null literal, and the two are told apart in the input-value
    definition [visit_option] builds: its default is absent for the
    first and a null literal for the second. *)
Theorem encode_default_value_Nothing_None
    (name : string) (type : TypeExpr) (description : option string) :
  _encode_default_value Nothing = Ok VNone ∧
  _encode_default_value PyNone = Ok NullValueNode ∧
  Exporter.visit_option
    {| option_name := name; option_type := type;
       option_default := Nothing; option_description := description |}
  = (t ← _encode_type type;
     Ok (InputValueDefinitionNode (Some (NameNode name)) description t
           VNone)) ∧
  Exporter.visit_option
    {| option_name := name; option_type := type;
       option_default := PyNone; option_description := description |}
  = (t ← _encode_type type;
     Ok (InputValueDefinitionNode (Some (NameNode name)) description t
           NullValueNode)).
Proof.
  repeat split; unfold Exporter.visit_option; simpl;
    by destruct (_encode_type type).
Qed.

(** C8: on the list [[1, Nothing, 2]] the encoder returns a list literal
    whose [values] is a list with a single element, itself the list of
    the two encoded integers; it is not the list of the encoded
    elements. *)
Theorem encode_default_value_list_nested :
  _encode_default_value (PyIterable [PyInt 1; Nothing; PyInt 2])
  = Ok (ListValueNode (VList [VList [IntValueNode "1"; IntValueNode "2"]])) ∧
  _encode_default_value (PyIterable [PyInt 1; Nothing; PyInt 2])
  ≠ Ok (ListValueNode (VList [IntValueNode "1"; IntValueNode "2"])).
Proof. by split. Qed.

(** ** The directive-argument encoder *)

(** A scalar kind other than [String] makes the encoder return [None],
    under any number of non-null wrappers; it raises for no scalar. *)
Lemma encode_directive_arg_type_scalar name :
  name ≠ "String" → _encode_directive_arg_type (SCALAR name) = Ok None.
Proof.
  intros Hne. simpl. unfold EncodeDirectiveArgType._encode.
  by destruct (String.eqb_spec name "String").
Qed.

Lemma encode_directive_arg_type_string_kind t :
  string_kind t = true →
  _encode_directive_arg_type t = Ok (Some StringValueNodeClass).
Proof.
  induction t as [t IH|name|r]; simpl; [done| |done].
  unfold EncodeDirectiveArgType._encode. by intros ->.
Qed.

(** C9: for an argument of the scalar kind [Int] the directive-argument
    type encoder raises nothing and returns [None], with or without a
    non-null wrapper; the failure comes later, in [visit_directive_arg],
    from calling [None]. *)
Theorem encode_directive_arg_type_Int :
  _encode_directive_arg_type (SCALAR "Int") = Ok None ∧
  _encode_directive_arg_type (NON_NULL (SCALAR "Int")) = Ok None ∧
  Exporter.visit_directive_arg
    {| arg_name := "limit"; arg_type := SCALAR "Int"; arg_value := "10" |}
  = Raise (TypeError "'NoneType' object is not callable").
Proof. by repeat split. Qed.

(** ** The exporter *)

Lemma bind_is_Ok {A B} (r : result A) (f : A → result B) :
  is_Ok r = true → (∀ a, is_Ok (f a) = true) → is_Ok (r ≫= f) = true.
Proof. destruct r as [a|e]; [intros _ Hf; apply Hf | done]. Qed.

Section exporter.
Import Exporter.

Lemma visit_option_exportable o :
  exportable_option o = true → is_Ok (visit_option o) = true.
Proof.
  intros [Ht Hd]%andb_prop. unfold visit_option.
  apply bind_is_Ok; [by apply encode_supported|]. intros t.
  apply bind_is_Ok; [by apply encode_default_value_encodable | done].
Qed.

Lemma visit_directive_exportable d :
  exportable_directive d = true → is_Ok (visit_directive d) = true.
Proof.
  intros Hd%forallb_Forall_true. unfold visit_directive.
  apply bind_is_Ok; [|done]. apply mapM_is_Ok.
  eapply Forall_impl; [exact Hd|]. intros a Ha. unfold visit_directive_arg.
  by rewrite (encode_directive_arg_type_string_kind _ Ha).
Qed.

Lemma mapM_visit_option_exportable l :
  forallb exportable_option l = true → is_Ok (mapM visit_option l) = true.
Proof.
  intros Hl%forallb_Forall_true. apply mapM_is_Ok.
  eapply Forall_impl; [exact Hl|]. apply visit_option_exportable.
Qed.

Lemma mapM_visit_directive_exportable l :
  forallb exportable_directive l = true →
  is_Ok (mapM visit_directive l) = true.
Proof.
  intros Hl%forallb_Forall_true. apply mapM_is_Ok.
  eapply Forall_impl; [exact Hl|]. apply visit_directive_exportable.
Qed.

Lemma visit_member_exportable m :
  exportable_member m = true → is_Ok (visit_member m) = true.
Proof.
  destruct m as [f|l]; simpl.
  - intros [[Ht Ho]%andb_prop Hd]%andb_prop. unfold visit_field.
    apply bind_is_Ok; [by apply encode_supported|]. intros t.
    apply bind_is_Ok; [by apply mapM_visit_option_exportable|]. intros a.
    apply bind_is_Ok; [by apply mapM_visit_directive_exportable | done].
  - intros [Ht Ho]%andb_prop. unfold visit_link.
    apply bind_is_Ok; [by apply mapM_visit_option_exportable|]. intros a.
    apply bind_is_Ok; [by apply encode_supported | done].
Qed.

Lemma mapM_visit_member_exportable l :
  forallb exportable_member l = true → is_Ok (mapM visit_member l) = true.
Proof.
  intros Hl%forallb_Forall_true. apply mapM_is_Ok.
  eapply Forall_impl; [exact Hl|]. apply visit_member_exportable.
Qed.

Lemma visit_item_exportable i :
  exportable_item i = true → is_Ok (visit_item i) = true.
Proof.
  destruct i as [n|r]; simpl.
  - intros [Hf Hd]%andb_prop. unfold visit_node.
    apply bind_is_Ok; [by apply mapM_visit_member_exportable|]. intros f.
    apply bind_is_Ok; [by apply mapM_visit_directive_exportable | done].
  - intros Hf. unfold visit_root.
    apply bind_is_Ok; [by apply mapM_visit_member_exportable | done].
Qed.

Lemma visit_record_exportable type_name obj :
  forallb (λ f, supported f.2) obj = true →
  is_Ok (visit_record type_name obj) = true.
Proof.
  intros Hf%forallb_Forall_true. unfold visit_record.
  apply bind_is_Ok; [|done]. apply mapM_is_Ok.
  eapply Forall_impl; [exact Hf|]. intros [f_name field] Hs.
  unfold new_field. apply bind_is_Ok; [by apply encode_supported | done].
Qed.

Lemma visit_graph_exportable g :
  exportable_graph g = true → is_Ok (visit_graph g) = true.
Proof.
  intros [Hr Hi]%andb_prop. unfold visit_graph.
  apply bind_is_Ok.
  - apply mapM_is_Ok. apply forallb_Forall_true in Hr.
    eapply Forall_impl; [exact Hr|]. intros [type_name type_].
    apply visit_record_exportable.
  - intros records. apply bind_is_Ok; [|done].
    apply mapM_is_Ok. apply forallb_Forall_true in Hi.
    eapply Forall_impl; [exact Hi|]. apply visit_item_exportable.
Qed.

(** A field definition carries the name of the member it comes from. *)
Lemma visit_member_exports m fd :
  visit_member m = Ok fd → exports_member m fd.
Proof.
  intros H. split; [done|]. destruct m as [f|l]; simpl in *.
  - unfold visit_field in H.
    apply bind_Ok_inv in H as (t & _ & H).
    apply bind_Ok_inv in H as (a & _ & H).
    by apply bind_Ok_inv in H as (d & _ & [= <-]).
  - unfold visit_link in H.
    apply bind_Ok_inv in H as (a & _ & H).
    by apply bind_Ok_inv in H as (t & _ & [= <-]).
Qed.

Lemma mapM_visit_member_exports l fields :
  mapM visit_member l = Ok fields → Forall2 exports_member l fields.
Proof.
  intros H%mapM_Ok. eapply Forall2_impl; [exact H|].
  apply visit_member_exports.
Qed.

Lemma visit_item_exports i d : visit_item i = Ok d → exports_item i d.
Proof.
  destruct i as [n|r]; simpl.
  - unfold visit_node. intros (fields & Hf & H)%bind_Ok_inv.
    apply bind_Ok_inv in H as (directives & _ & [= <-]).
    exists fields, directives. split; [done|].
    by apply mapM_visit_member_exports.
  - unfold visit_root. intros (fields & Hf & [= <-])%bind_Ok_inv.
    exists fields. split; [done|]. by apply mapM_visit_member_exports.
Qed.

Lemma visit_record_exports e d :
  visit_record e.1 e.2 = Ok d → exports_record e d.
Proof.
  unfold visit_record. intros (fields & Hf & [= <-])%bind_Ok_inv.
  exists fields. split; [done|]. apply mapM_Ok in Hf.
  eapply Forall2_impl; [exact Hf|]. intros [f_name field] fd. simpl.
  unfold new_field. intros (t & Ht & [= <-])%bind_Ok_inv. eauto.
Qed.

End exporter.

(** C4: the definitions [visit_graph] returns are, in this order, the
    scalar definition of [Any], one object type per entry of [data_types]
    in the order of the entries, and one definition per item of the graph
    in the order of the items: for the root an extension of the type
    [Query], for a node an object type of its name, each with one field
    definition per member in the members' order. When nothing in the
    graph is outside what the encoders accept, [visit_graph] does return
    such a list. *)
Theorem visit_graph_order (g : Graph) :
  (exportable_graph g = true → is_Ok (Exporter.visit_graph g) = true) ∧
  (∀ defs, Exporter.visit_graph g = Ok defs →
     ∃ records nodes,
       defs = ScalarTypeDefinitionNode (Some (NameNode "Any"))
                :: records ++ nodes ∧
       Forall2 exports_record (data_types g) records ∧
       Forall2 exports_item (items g) nodes).
Proof.
  split; [apply visit_graph_exportable|].
  intros defs. unfold Exporter.visit_graph.
  intros (records & Hr & H)%bind_Ok_inv.
  apply bind_Ok_inv in H as (nodes & Hn & [= <-]).
  exists records, nodes. split; [done|]. split.
  - apply mapM_Ok in Hr. eapply Forall2_impl; [exact Hr|].
    intros [type_name type_] d. apply (visit_record_exports (type_name, type_)).
  - apply mapM_Ok in Hn. eapply Forall2_impl; [exact Hn|].
    apply visit_item_exports.
Qed.

Lemma visit_graph_order_witness :
  is_Ok (Exporter.visit_graph sample_graph) = true ∧
  ∃ defs records nodes,
    Exporter.visit_graph sample_graph = Ok defs ∧
    defs = ScalarTypeDefinitionNode (Some (NameNode "Any"))
             :: records ++ nodes ∧
    Forall2 exports_record (data_types sample_graph) records ∧
    Forall2 exports_item (items sample_graph) nodes.
Proof.
  destruct (visit_graph_order sample_graph) as [H1 H2].
  split; [apply H1; reflexivity|].
  destruct (H2 _ eq_refl) as (records & nodes & H).
  eexists _, records, nodes. split; [reflexivity | exact H].
Defined.

(** ** The stripping transformer *)

Section strip_graph.
Import _StripGraph.

(** The defaults of the transformer rebuild what they visit. *)
Lemma transformer_visit_option_id o : GraphTransformer.visit_option o = o.
Proof. by destruct o. Qed.

Lemma transformer_visit_options_id (l : list Option) :
  GraphTransformer.visit_option <$> l = l.
Proof.
  induction l as [|o l IH]; [done|].
  by rewrite fmap_cons, transformer_visit_option_id, IH.
Qed.

Lemma transformer_visit_member_id m : GraphTransformer.visit_member m = m.
Proof.
  destruct m as [[]|[]]; simpl;
    unfold GraphTransformer.visit_field, GraphTransformer.visit_link; simpl;
    by rewrite transformer_visit_options_id.
Qed.

Lemma transformer_visit_members_id (l : list Member) :
  GraphTransformer.visit_member <$> l = l.
Proof.
  induction l as [|m l IH]; [done|].
  by rewrite fmap_cons, transformer_visit_member_id, IH.
Qed.

(** Membership in [fields_map] is membership of the name among the
    names of the fields. *)
Lemma fields_map_is_Some i k :
  is_Some (fields_map i !! k) ↔ k ∈ member_name <$> item_fields i.
Proof.
  unfold fields_map. rewrite <- not_eq_None_Some.
  rewrite <- not_elem_of_list_to_map.
  rewrite <- fmap_reverse, <- list_fmap_compose, fmap_reverse.
  rewrite elem_of_reverse. split; [apply dec_stable | auto].
Qed.

Lemma graph_skip_spec i : graph_skip i ↔ introspection_item i.
Proof.
  unfold graph_skip, introspection_item. destruct (item_name i).
  - apply Is_true_true.
  - rewrite bool_decide_spec. apply fields_map_is_Some.
Qed.

Lemma str_in_spec x l : str_in x l ↔ x ∈ l.
Proof.
  unfold str_in. induction l as [|y l IH]; simpl.
  - rewrite elem_of_nil. done.
  - rewrite elem_of_cons, orb_True, IH, Is_true_true, String.eqb_eq. done.
Qed.

Lemma item_name_visit_item i : item_name (visit_item i) = item_name i.
Proof. by destruct i. Qed.

(** The fields an item keeps: all but the reserved ones, unchanged and
    in their order. *)
Lemma item_fields_visit_item i :
  item_fields (visit_item i)
  = match i with
    | ANode n => filter (λ f, ¬ node_skip f) (node_fields n)
    | ARoot r => filter (λ f, ¬ root_skip f) (root_fields r)
    end.
Proof. destruct i; simpl; apply transformer_visit_members_id. Qed.

Lemma item_fields_visit_item_elem i m :
  m ∈ item_fields (visit_item i) → m ∈ item_fields i.
Proof.
  rewrite item_fields_visit_item.
  destruct i; simpl; rewrite list_elem_of_filter; tauto.
Qed.

Lemma introspection_item_visit_item i :
  introspection_item (visit_item i) → introspection_item i.
Proof.
  unfold introspection_item. rewrite item_name_visit_item.
  destruct (item_name i); [done|].
  rewrite !list_elem_of_fmap. intros (m & -> & Hm).
  eauto using item_fields_visit_item_elem.
Qed.

Lemma visit_item_idemp i : visit_item (visit_item i) = visit_item i.
Proof.
  destruct i as [n|r]; simpl; unfold visit_node, visit_root; simpl;
    rewrite !transformer_visit_members_id;
    by rewrite list_filter_filter_l.
Qed.

Lemma filter_graph_skip_visit_items (l : list Item) :
  Forall (λ i, ¬ graph_skip i) l →
  filter (λ n, ¬ graph_skip n) (visit_item <$> l) = visit_item <$> l.
Proof.
  induction 1 as [|i l Hi _ IH]; [done|].
  rewrite fmap_cons, filter_cons_True, IH; [done|].
  rewrite graph_skip_spec in *. eauto using introspection_item_visit_item.
Qed.

Lemma visit_graph_items g :
  items (visit_graph g)
  = visit_item <$> filter (λ i, ¬ introspection_item i) (items g).
Proof.
  simpl. f_equal. apply list_filter_iff. intros i.
  by rewrite graph_skip_spec.
Qed.

End strip_graph.

(** C5: the items of the stripped graph are the visited items of the
    input that are not introspection items (a node named with the prefix
    [__], a nameless edge with a field [__schema]), in order; none of
    them is an introspection item, none has a field named [__typename],
    and a root among them has no field named [_entities]. *)
Theorem strip_graph_removes_introspection (g : Graph) :
  items (_StripGraph.visit_graph g)
  = _StripGraph.visit_item
      <$> filter (λ i, ¬ introspection_item i) (items g) ∧
  ∀ i, i ∈ items (_StripGraph.visit_graph g) →
    ¬ introspection_item i ∧
    (∀ m, m ∈ item_fields i → member_name m ≠ "__typename") ∧
    (∀ r, i = ARoot r →
          ∀ m, m ∈ root_fields r → member_name m ≠ "_entities").
Proof.
  split; [apply visit_graph_items|].
  intros i'. rewrite visit_graph_items, list_elem_of_fmap.
  intros (i & -> & [Hi _]%list_elem_of_filter). split; [|split].
  - eauto using introspection_item_visit_item.
  - intros m. rewrite item_fields_visit_item.
    destruct i as [n|r]; rewrite list_elem_of_filter;
      unfold _StripGraph.node_skip, _StripGraph.root_skip;
      rewrite str_in_spec; intros [Hm _] Heq; apply Hm; rewrite Heq;
      set_solver.
  - intros r' Hr' m.
    change (root_fields r') with (item_fields (ARoot r')). rewrite <- Hr'.
    rewrite item_fields_visit_item. destruct i as [n|r]; [done|].
    rewrite list_elem_of_filter. unfold _StripGraph.root_skip.
    rewrite str_in_spec. intros [Hm _] Heq. apply Hm. rewrite Heq.
    set_solver.
Qed.

Lemma strip_graph_removes_introspection_witness :
  item_name <$> items (_StripGraph.visit_graph sample_introspection_graph)
  = [None; Some "User"] ∧
  ∀ m, m ∈ [sample_field "version" String] → member_name m ≠ "_entities".
Proof.
  destruct (strip_graph_removes_introspection sample_introspection_graph)
    as [H1 H2].
  split; [by rewrite H1|].
  destruct (H2 (ARoot {| root_fields := [sample_field "version" String] |}))
    as (_ & _ & H3); [|exact (H3 _ eq_refl)].
  vm_compute. apply list_elem_of_here.
Defined.

(** C6: stripping is idempotent. *)
Theorem strip_graph_idempotent (g : Graph) :
  _StripGraph.visit_graph (_StripGraph.visit_graph g)
  = _StripGraph.visit_graph g.
Proof.
  unfold _StripGraph.visit_graph at 1 3. simpl. f_equal.
  rewrite filter_graph_skip_visit_items.
  - rewrite <- list_fmap_compose. apply list_fmap_ext. intros _ i _.
    apply visit_item_idemp.
  - apply Forall_forall. by intros i [Hi _]%list_elem_of_filter.
Qed.

(** C10: stripping hands the [data_types] of the graph over as they
    are. *)
Theorem strip_graph_data_types (g : Graph) :
  data_types (_StripGraph.visit_graph g) = data_types g.
Proof. reflexivity. Qed.

(** ** The whole export on the sample graphs *)

Example get_ast_sample_graph :
  get_ast sample_graph
  = Ok {| definitions :=
       [ ScalarTypeDefinitionNode (Some (NameNode "Any"));
         ObjectTypeDefinitionNode (Some (NameNode "Point"))
           [ FieldDefinitionNode (Some (NameNode "x"))
               (NonNullTypeNode (NameNode "Int")) None None;
             FieldDefinitionNode (Some (NameNode "y"))
               (NameNode "Float") None None ]
           None;
         ObjectTypeExtensionNode (Some (NameNode "Query"))
           [ FieldDefinitionNode (Some (NameNode "version"))
               (NonNullTypeNode (NameNode "String")) (Some []) (Some []) ]
           [];
         ObjectTypeDefinitionNode (Some (NameNode "User"))
           [ FieldDefinitionNode (Some (NameNode "id"))
               (NonNullTypeNode (NameNode "Int")) (Some []) (Some []);
             FieldDefinitionNode (Some (NameNode "name"))
               (NameNode "String") (Some []) (Some []) ]
           (Some []) ] |}.
Proof. vm_compute. reflexivity. Qed.

Example strip_sample_introspection_graph :
  items (_StripGraph.visit_graph sample_introspection_graph)
  = [ ARoot {| root_fields := [sample_field "version" String] |};
      ANode {| node_name := Some "User";
               node_fields := [sample_field "id" Integer];
               node_description := None;
               node_directives := [] |} ].
Proof. vm_compute. reflexivity. Qed.

(** A nameless item of the class [Node] is visited by [visit_node], which
    drops [__typename] only. *)
Example strip_nameless_node :
  items (_StripGraph.visit_graph
           {| items := [ANode {| node_name := None;
                                 node_fields := [sample_field "__typename" Any;
                                                 sample_field "_entities" Any];
                                 node_description := None;
                                 node_directives := [] |}];
              data_types := [] |})
  = [ANode {| node_name := None;
              node_fields := [sample_field "_entities" Any];
              node_description := None;
              node_directives := [] |}].
Proof. vm_compute. reflexivity. Qed.

(** * Further properties *)

(** ** The type encoder *)

Section encode_type_more.
Import EncodeType.

Lemma not_null_is_Ok_eq func kw : is_Ok (not_null func kw) = is_Ok (func kw).
Proof.
  unfold not_null. destruct (func kw) as [val|]; [|done]. simpl.
  destruct val as [| ? []| | |]; simpl; by destruct (kw_get_optional kw).
Qed.


Lemma encode_is_Ok v : ∀ kw, is_Ok (_encode v kw) = supported v.
Proof.
  induction v as [t IH|n| | | |item IH| | | |r]; intros kw; simpl;
    try (unfold not_null; simpl; by destruct (kw_get_optional kw));
    try done.
  - etrans; [apply (not_null_is_Ok_eq (λ _, _encode t (Some true)))|].
    apply IH.
  - etrans; [apply (not_null_is_Ok_eq
                      (λ _, node ← _encode item None; Ok (ListTypeNode node)))|].
    rewrite <- (IH None). by destruct (_encode item None).
Qed.


(** What the decorated function hands back, with the keyword or without:
    well formed, and with no non-null wrapper at the top when the keyword
    was passed. *)
Lemma encode_well_formed v : ∀ kw r,
  _encode v kw = Ok r →
  match r with
  | Tuple x b =>
      b = true ∧ kw_get_optional kw = true ∧
      well_formed_type (coerce x) = true ∧ non_null_depth (coerce x) = 0
  | _ =>
      well_formed_type r = true ∧
      (kw_get_optional kw = true → non_null_depth r = 0)
  end.
Proof.
  induction v as [t IH|n| | | |item IH| | | |r']; simpl; intros kw r;
    try (unfold not_null; simpl;
         destruct (kw_get_optional kw) eqn:?; intros [= <-]; by simpl);
    try done.
  - unfold not_null. intros (val & Hval & H)%bind_Ok_inv.
    specialize (IH _ _ Hval).
    destruct val as [s|x b|s|ty|ty].
    + by destruct IH.
    + destruct IH as (-> & _ & Hwf & Hd). injection H as <-.
      by destruct (coerce x).
    + destruct (kw_get_optional kw) eqn:?; by injection H as <-.
    + destruct IH as [Hwf _].
      destruct (kw_get_optional kw) eqn:?; by injection H as <-.
    + destruct IH as [_ Hd]. by specialize (Hd eq_refl).
  - unfold not_null. intros (val & Hval & H)%bind_Ok_inv.
    apply bind_Ok_inv in Hval as (node & Hnode & [= <-]).
    specialize (IH _ _ Hnode).
    assert (well_formed_type node = true) as Hn.
    { destruct node;
        first [by destruct IH as [? _] | by destruct IH as (_ & ? & _)]. }
    destruct (kw_get_optional kw) eqn:?; by injection H as <-.
Qed.

(** Two [Optional] on top of each other change nothing but, under the
    keyword, the string inside the pair into its name node. *)
Lemma encode_Optional_Optional_kw T : ∀ kw,
  match _encode (Optional (Optional T)) kw, _encode T kw with
  | Ok r1, Ok r2 =>
      r1 = r2 ∨
      ∃ x y, r1 = Tuple x true ∧ r2 = Tuple y true ∧ coerce x = coerce y
  | Raise e1, Raise e2 => e1 = e2
  | _, _ => False
  end.
Proof.
  induction T as [t IH|n| | | |item _| | | |r]; intros kw;
    try (destruct kw as [[]|]; vm_compute; eauto 6; done).
  - change (_encode (Optional (Optional (Optional t))) kw)
      with (not_null (λ _, _encode (Optional (Optional t)) (Some true)) kw).
    change (_encode (Optional t) kw)
      with (not_null (λ _, _encode t (Some true)) kw).
    specialize (IH (Some true)). unfold not_null.
    destruct (_encode (Optional (Optional t)) (Some true)) as [r1|e1],
             (_encode t (Some true)) as [r2|e2]; simpl; try done.
    destruct IH as [->|(x & y & -> & -> & Hxy)].
    + destruct r2 as [| ? []| | |]; destruct (kw_get_optional kw); auto.
    + left. by rewrite Hxy.
  - simpl. unfold not_null. simpl.
    destruct (_encode item None) as [node|e]; simpl; [|done].
    destruct (kw_get_optional kw); simpl; eauto 6.
Qed.

End encode_type_more.


(** X2: what the type encoder returns is a well-formed type: names, lists
    and non-null wrappers only, and never a non-null wrapper directly on
    another. *)
Theorem encode_type_well_formed (v : TypeExpr) (n : type_value) :
  _encode_type v = Ok n → well_formed_type n = true.
Proof.
  intros H. pose proof (encode_well_formed _ _ _ H) as Hwf.
  destruct n; first [by destruct Hwf as [? _] | by destruct Hwf as (_ & ? & _)].
Qed.

Lemma encode_type_well_formed_witness :
  well_formed_type
    (NonNullTypeNode (ListTypeNode (NonNullTypeNode (NameNode "Int")))) = true.
Proof.
  exact (encode_type_well_formed (Optional (Optional (Sequence Integer))) _
           eq_refl).
Defined.

(** X3: two [Optional] wrappers directly on top of each other cancel: the
    encoder returns for [Optional(Optional(T))] what it returns for [T],
    so an even number of wrappers gives the nullability of the type below
    them and an odd number that of a single wrapper. *)
Theorem encode_type_Optional_Optional_cancel (T : TypeExpr) :
  _encode_type (Optional (Optional T)) = _encode_type T.
Proof.
  unfold _encode_type.
  pose proof (encode_Optional_Optional_kw T None) as H.
  destruct (EncodeType._encode (Optional (Optional T)) None) as [r1|e1] eqn:H1,
           (EncodeType._encode T None) as [r2|e2] eqn:H2; try done.
  - destruct H as [->|(x & y & -> & _)]; [done|].
    by destruct (encode_wf _ _ _ H1).
  - by rewrite H.
Qed.

(** X4: around a type expression that is not itself an [Optional], one
    [Optional] takes the non-null wrapper off and changes nothing else:
    the encoding of [T] is the non-null wrapper of the encoding of
    [Optional(T)], and the two raise together. *)
Theorem encode_type_Optional_unwraps (T : TypeExpr) :
  is_Optional T = false →
  _encode_type T = (n ← _encode_type (Optional T); Ok (NonNullTypeNode n)).
Proof.
  unfold _encode_type.
  destruct T as [t|s| | | |item| | | |r]; try done; simpl; intros _.
  unfold EncodeType.not_null. simpl.
  by destruct (EncodeType._encode item None).
Qed.

Lemma encode_type_Optional_unwraps_witness :
  _encode_type (Sequence (TypeRef "User"))
  = (n ← _encode_type (Optional (Sequence (TypeRef "User")));
     Ok (NonNullTypeNode n)).
Proof. exact (encode_type_Optional_unwraps (Sequence (TypeRef "User")) eq_refl). Defined.

(** ** The default-value encoder *)

Lemma mapM_is_Ok_forallb {A B} (f : A → result B) (l : list A) :
  is_Ok (mapM f l) = forallb (λ x, is_Ok (f x)) l.
Proof.
  induction l as [|x l IH]; simpl; [done|].
  destruct (f x); simpl; [|done]. rewrite <- IH. by destruct (mapM f l).
Qed.

Lemma forallb_ext_Forall {A} (f g : A → bool) (l : list A) :
  Forall (λ x, f x = g x) l → forallb f l = forallb g l.
Proof. induction 1 as [|x l Hx _ IH]; simpl; [done|]. by rewrite Hx, IH. Qed.

Lemma bind_is_Ok_eq {A B} (r : result A) (f : A → result B) (b : bool) :
  (∀ a, is_Ok (f a) = b) → is_Ok (r ≫= f) = is_Ok r && b.
Proof. intros Hf. destruct r as [a|e]; simpl; [apply Hf | done]. Qed.

Lemma encode_default_value_is_Ok v :
  is_Ok (_encode_default_value v) = encodable v.
Proof.
  induction v as [| | b | z | x | s | items IH | r] using Value_ind_nested;
    try done.
  - simpl. by destruct (isfinite x).
  - rewrite encode_default_value_iterable.
    rewrite (bind_is_Ok_eq _ _ true) by done.
    rewrite andb_true_r, mapM_is_Ok_forallb. simpl.
    by apply forallb_ext_Forall.
Qed.

Lemma encode_default_value_VNone v n :
  _encode_default_value v = Ok n → (n = VNone ↔ v = Nothing).
Proof.
  destruct v as [| | b | z | x | s | items | r]; simpl;
    try (intros [= <-]; by split); try done.
  - destruct (isfinite x); [intros [= <-]; by split | done].
  - intros (k & _ & [= <-])%bind_Ok_inv. by split.
Qed.

(** X5: the default-value encoder returns exactly on the values made of
    the sentinel, [None], booleans, integers, finite floats, strings and
    iterables of such values; a float that is not finite or an unknown
    object raises, however deep in a nested iterable it sits. *)
Theorem encode_default_value_Ok_iff_encodable (v : Value) :
  is_Ok (_encode_default_value v) = encodable v.
Proof. apply encode_default_value_is_Ok. Qed.

(** X6: in the list literal returned for an iterable, the single element of
    [values] lists the encodings of the items other than the sentinel, one
    each and in their order, and none of them is [None]. *)
Theorem encode_default_value_iterable_values
    (items : list Value) (r : value_ast) :
  _encode_default_value (PyIterable items) = Ok r →
  ∃ value_nodes,
    r = ListValueNode (VList [VList value_nodes]) ∧
    Forall2 (λ v n, _encode_default_value v = Ok n)
      (filter (λ v, ¬ is_Nothing v) items) value_nodes ∧
    Forall (λ n, n ≠ VNone) value_nodes.
Proof.
  intros (value_nodes & Hm & ->)%encode_default_value_iterable_nodes.
  exists value_nodes. apply mapM_Ok in Hm. split; [done|]. split; [done|].
  assert (Forall (λ v, ¬ is_Nothing v)
            (filter (λ v, ¬ is_Nothing v) items)) as Hf.
  { apply Forall_forall. by intros v [? _]%list_elem_of_filter. }
  revert Hm Hf. generalize (filter (λ v, ¬ is_Nothing v) items).
  intros l Hm. induction Hm as [|v n l k Hv _ IH]; [constructor|].
  intros [Hnot Hl]%Forall_cons. constructor; [|by apply IH].
  intros ->. destruct (encode_default_value_VNone _ _ Hv) as [Hn _].
  rewrite (Hn eq_refl) in Hnot. by apply Hnot.
Qed.

Lemma encode_default_value_iterable_values_witness :
  ∃ value_nodes,
    ListValueNode (VList [VList [IntValueNode "1"; NullValueNode]])
    = ListValueNode (VList [VList value_nodes]) ∧
    Forall2 (λ v n, _encode_default_value v = Ok n)
      (filter (λ v, ¬ is_Nothing v) [Nothing; PyInt 1; Nothing; PyNone])
      value_nodes ∧
    Forall (λ n, n ≠ VNone) value_nodes.
Proof.
  exact (encode_default_value_iterable_values
           [Nothing; PyInt 1; Nothing; PyNone] _ eq_refl).
Defined.

(** X7: the input-value definition built for an option carries the
    option's name and the encoding of its type, and has no default exactly
    when the option's default is the sentinel [Nothing]. *)
Theorem visit_option_default_omitted
    (o : Option) (d : input_value_definition) :
  Exporter.visit_option o = Ok d →
  input_value_name d = Some (NameNode (option_name o)) ∧
  _encode_type (option_type o) = Ok (input_value_type d) ∧
  _encode_default_value (option_default o) = Ok (input_value_default_value d) ∧
  (input_value_default_value d = VNone ↔ option_default o = Nothing).
Proof.
  unfold Exporter.visit_option. intros (t & Ht & H)%bind_Ok_inv.
  apply bind_Ok_inv in H as (v & Hv & [= <-]). simpl.
  repeat split; try done; by apply encode_default_value_VNone.
Qed.

Lemma visit_option_default_omitted_witness :
  input_value_default_value
    (InputValueDefinitionNode (Some (NameNode "limit")) None
       (NonNullTypeNode (NameNode "Int")) (IntValueNode "10")) = VNone
  ↔ PyInt 10 = Nothing.
Proof.
  exact (proj2 (proj2 (proj2
    (visit_option_default_omitted
       {| option_name := "limit"; option_type := Integer;
          option_default := PyInt 10; option_description := None |}
       _ eq_refl)))).
Defined.

(** ** The directive-argument encoder *)

Lemma encode_directive_arg_type_strip t :
  _encode_directive_arg_type t
  = _encode_directive_arg_type (strip_NON_NULL t).
Proof. induction t as [t IH|name|r]; simpl; [exact IH | done | done]. Qed.

Lemma strip_NON_NULL_cases t :
  match strip_NON_NULL t with
  | NON_NULL _ => False
  | _ => True
  end.
Proof. induction t; simpl; done. Qed.

(** X8: the directive-argument type encoder looks through every [NON_NULL]
    wrapper, not one only, and the descriptor below decides: the scalar
    [String] gives the class of string literals, any other scalar gives
    [None] without an error, and anything else raises the [TypeError]
    of the unsupported argument type. *)
Theorem encode_directive_arg_type_innermost (t : ArgType) :
  _encode_directive_arg_type t
  = match strip_NON_NULL t with
    | SCALAR name =>
        Ok (if String.eqb name "String" then Some StringValueNodeClass
            else None)
    | OtherKind r => Raise (TypeError ("Unsupported arg type: " ++ r))
    | NON_NULL of_type => _encode_directive_arg_type of_type
    end
  ∧ ∀ of_type, strip_NON_NULL t ≠ NON_NULL of_type.
Proof.
  split.
  - rewrite encode_directive_arg_type_strip. by destruct (strip_NON_NULL t).
  - intros of_type H. pose proof (strip_NON_NULL_cases t) as Hc.
    by rewrite H in Hc.
Qed.

(** X9: a directive argument is exported exactly when its type is the
    scalar [String] below its [NON_NULL] wrappers, and then as an argument
    of the same name whose value is the string literal of the argument's
    value. *)
Theorem visit_directive_arg_Ok (a : Arg) (n : argument_node) :
  Exporter.visit_directive_arg a = Ok n ↔
  strip_NON_NULL (arg_type a) = SCALAR "String" ∧
  n = ArgumentNode (Some (NameNode (arg_name a)))
        (StringValueNode (arg_value a)).
Proof.
  unfold Exporter.visit_directive_arg.
  rewrite encode_directive_arg_type_strip.
  pose proof (strip_NON_NULL_cases (arg_type a)) as Hc.
  destruct (strip_NON_NULL (arg_type a)) as [t|name|r]; simpl; [done| |].
  - unfold EncodeDirectiveArgType._encode.
    destruct (String.eqb_spec name "String") as [->|Hne]; simpl.
    + split; [by intros [= <-] | by intros [_ ->]].
    + split; [done | intros [[= ->] _]; done].
  - split; [done | by intros [? _]].
Qed.


(** ** The exporter, as a whole *)

Lemma encode_type_well_formed_node v n :
  _encode_type v = Ok n → well_formed_type n = true.
Proof.
  intros H. pose proof (encode_well_formed _ _ _ H) as Hwf.
  destruct n; first [by destruct Hwf as [? _] | by destruct Hwf as (_ & ? & _)].
Qed.

Lemma forallb_ext_all {A} (f g : A → bool) (l : list A) :
  (∀ x, f x = g x) → forallb f l = forallb g l.
Proof. intros H. apply forallb_ext_Forall, Forall_forall. auto. Qed.

Section exporter_more.
Import Exporter.

Lemma visit_option_is_Ok o : is_Ok (visit_option o) = exportable_option o.
Proof.
  unfold visit_option, exportable_option.
  rewrite (bind_is_Ok_eq _ _ (encodable (option_default o))).
  - f_equal. apply encode_is_Ok.
  - intros t. rewrite (bind_is_Ok_eq _ _ true) by done.
    by rewrite andb_true_r, encode_default_value_is_Ok.
Qed.

Lemma visit_directive_arg_is_Ok a :
  is_Ok (visit_directive_arg a) = string_kind (arg_type a).
Proof.
  unfold visit_directive_arg.
  induction (arg_type a) as [t IH|name|r]; simpl; [exact IH| |done].
  unfold EncodeDirectiveArgType._encode.
  by destruct (String.eqb name "String").
Qed.

Lemma visit_directive_is_Ok d :
  is_Ok (visit_directive d) = exportable_directive d.
Proof.
  unfold visit_directive, exportable_directive.
  rewrite (bind_is_Ok_eq _ _ true) by done.
  rewrite andb_true_r, mapM_is_Ok_forallb.
  apply forallb_ext_all, visit_directive_arg_is_Ok.
Qed.

Lemma mapM_visit_option_is_Ok l :
  is_Ok (mapM visit_option l) = forallb exportable_option l.
Proof.
  rewrite mapM_is_Ok_forallb. apply forallb_ext_all, visit_option_is_Ok.
Qed.

Lemma mapM_visit_directive_is_Ok l :
  is_Ok (mapM visit_directive l) = forallb exportable_directive l.
Proof.
  rewrite mapM_is_Ok_forallb. apply forallb_ext_all, visit_directive_is_Ok.
Qed.

Lemma visit_member_is_Ok m : is_Ok (visit_member m) = exportable_member m.
Proof.
  destruct m as [f|l]; simpl.
  - unfold visit_field.
    rewrite (bind_is_Ok_eq _ _
               (forallb exportable_option (field_options f)
                && forallb exportable_directive (field_directives f))).
    + rewrite andb_assoc. do 2 f_equal. apply encode_is_Ok.
    + intros t.
      rewrite (bind_is_Ok_eq _ _
                 (forallb exportable_directive (field_directives f))).
      * by rewrite mapM_visit_option_is_Ok.
      * intros a. rewrite (bind_is_Ok_eq _ _ true) by done.
        by rewrite andb_true_r, mapM_visit_directive_is_Ok.
  - unfold visit_link.
    rewrite (bind_is_Ok_eq _ _ (supported (link_type l))).
    + by rewrite mapM_visit_option_is_Ok, andb_comm.
    + intros a. rewrite (bind_is_Ok_eq _ _ true) by done.
      rewrite andb_true_r. apply encode_is_Ok.
Qed.

Lemma mapM_visit_member_is_Ok l :
  is_Ok (mapM visit_member l) = forallb exportable_member l.
Proof.
  rewrite mapM_is_Ok_forallb. apply forallb_ext_all, visit_member_is_Ok.
Qed.

Lemma visit_item_is_Ok i : is_Ok (visit_item i) = exportable_item i.
Proof.
  destruct i as [n|r]; simpl.
  - unfold visit_node.
    rewrite (bind_is_Ok_eq _ _
               (forallb exportable_directive (node_directives n))).
    + by rewrite mapM_visit_member_is_Ok.
    + intros f. rewrite (bind_is_Ok_eq _ _ true) by done.
      by rewrite andb_true_r, mapM_visit_directive_is_Ok.
  - unfold visit_root. rewrite (bind_is_Ok_eq _ _ true) by done.
    by rewrite andb_true_r, mapM_visit_member_is_Ok.
Qed.

Lemma visit_record_is_Ok type_name obj :
  is_Ok (visit_record type_name obj) = forallb (λ f, supported f.2) obj.
Proof.
  unfold visit_record. rewrite (bind_is_Ok_eq _ _ true) by done.
  rewrite andb_true_r, mapM_is_Ok_forallb. apply forallb_ext_all.
  intros [f_name field]. unfold new_field.
  rewrite (bind_is_Ok_eq _ _ true) by done.
  rewrite andb_true_r. apply encode_is_Ok.
Qed.

Lemma visit_graph_is_Ok g : is_Ok (visit_graph g) = exportable_graph g.
Proof.
  unfold visit_graph, exportable_graph.
  rewrite (bind_is_Ok_eq _ _ (forallb exportable_item (items g))).
  - f_equal. rewrite mapM_is_Ok_forallb. apply forallb_ext_all.
    intros [type_name type_]. apply visit_record_is_Ok.
  - intros records. rewrite (bind_is_Ok_eq _ _ true) by done.
    rewrite andb_true_r, mapM_is_Ok_forallb.
    apply forallb_ext_all, visit_item_is_Ok.
Qed.

(** The types of an exported field, and of the document, are well
    formed. *)
Lemma visit_option_well_formed o a :
  visit_option o = Ok a → well_formed_type (input_value_type a) = true.
Proof.
  unfold visit_option. intros (t & Ht & H)%bind_Ok_inv.
  apply bind_Ok_inv in H as (v & _ & [= <-]). simpl.
  by eapply encode_type_well_formed_node.
Qed.

Lemma visit_member_well_formed m fd :
  visit_member m = Ok fd →
  Forall (λ t, well_formed_type t = true) (field_definition_types fd).
Proof.
  assert (∀ l args, mapM visit_option l = Ok args →
            Forall (λ t, well_formed_type t = true)
              (input_value_type <$> args)) as Hargs.
  { intros l args Hm%mapM_Ok. apply Forall_fmap.
    eapply Forall2_Forall_r; [exact Hm|]. apply Forall_forall.
    intros o _ a. apply visit_option_well_formed. }
  destruct m as [f|l]; simpl.
  - unfold visit_field. intros (t & Ht & H)%bind_Ok_inv.
    apply bind_Ok_inv in H as (args & Ha & H).
    apply bind_Ok_inv in H as (ds & _ & [= <-]).
    constructor; [by eapply encode_type_well_formed_node | by eapply Hargs].
  - unfold visit_link. intros (args & Ha & H)%bind_Ok_inv.
    apply bind_Ok_inv in H as (t & Ht & [= <-]).
    constructor; [by eapply encode_type_well_formed_node | by eapply Hargs].
Qed.

Lemma mapM_visit_member_well_formed l fields :
  mapM visit_member l = Ok fields →
  Forall (λ t, well_formed_type t = true) (fields ≫= field_definition_types).
Proof.
  intros Hm%mapM_Ok. apply Forall_bind.
  eapply Forall2_Forall_r; [exact Hm|]. apply Forall_forall.
  intros m _ fd. apply visit_member_well_formed.
Qed.

Lemma visit_item_well_formed i d :
  visit_item i = Ok d →
  Forall (λ t, well_formed_type t = true) (definition_types d).
Proof.
  destruct i as [n|r]; simpl.
  - unfold visit_node. intros (fields & Hf & H)%bind_Ok_inv.
    apply bind_Ok_inv in H as (ds & _ & [= <-]).
    by apply mapM_visit_member_well_formed in Hf.
  - unfold visit_root. intros (fields & Hf & [= <-])%bind_Ok_inv.
    by apply mapM_visit_member_well_formed in Hf.
Qed.

Lemma visit_record_well_formed type_name obj d :
  visit_record type_name obj = Ok d →
  Forall (λ t, well_formed_type t = true) (definition_types d).
Proof.
  unfold visit_record. intros (fields & Hf & [= <-])%bind_Ok_inv.
  unfold definition_types. simpl. apply Forall_bind. apply mapM_Ok in Hf.
  eapply Forall2_Forall_r; [exact Hf|]. apply Forall_forall.
  intros [f_name field] _ fd. unfold new_field.
  intros (t & Ht & [= <-])%bind_Ok_inv. simpl. constructor; [|constructor].
  by eapply encode_type_well_formed_node.
Qed.

End exporter_more.

(** X10: the export is all or nothing, and it returns exactly when every
    type expression in the graph (of a record field, a field, a link or an
    option) is free of unsupported objects, every default value is one the
    default encoder accepts, and every directive argument is of the scalar
    kind [String]; a single exception anywhere leaves no partial list of
    definitions. *)
Theorem visit_graph_Ok_iff_exportable (g : Graph) :
  is_Ok (Exporter.visit_graph g) = exportable_graph g.
Proof. apply visit_graph_is_Ok. Qed.

(** X11: the field definition built for a field or a link carries its
    name and the encoding of its type, has one argument per option, in the
    order of the options, and has a list of directives for a field but
    none for a link. *)
Theorem visit_member_content (m : Member) (fd : field_definition) :
  Exporter.visit_member m = Ok fd →
  field_definition_name fd = Some (NameNode (member_name m)) ∧
  _encode_type (member_type m) = Ok (field_definition_type fd) ∧
  Forall2 (λ o a, Exporter.visit_option o = Ok a)
    (member_options m) (field_definition_arguments fd) ∧
  match m with
  | AField f =>
      ∃ directives,
        field_definition_directives fd = Some directives ∧
        Forall2 (λ d n, Exporter.visit_directive d = Ok n)
          (field_directives f) directives
  | ALink _ => field_definition_directives fd = None
  end.
Proof.
  destruct m as [f|l]; simpl.
  - unfold Exporter.visit_field. intros (t & Ht & H)%bind_Ok_inv.
    apply bind_Ok_inv in H as (args & Ha & H).
    apply bind_Ok_inv in H as (ds & Hd & [= <-]). simpl.
    apply mapM_Ok in Ha, Hd. eauto 10.
  - unfold Exporter.visit_link. intros (args & Ha & H)%bind_Ok_inv.
    apply bind_Ok_inv in H as (t & Ht & [= <-]). simpl.
    apply mapM_Ok in Ha. eauto.
Qed.

Lemma visit_member_content_witness :
  field_definition_name
    (FieldDefinitionNode (Some (NameNode "id"))
       (NonNullTypeNode (NameNode "Int")) (Some []) (Some []))
  = Some (NameNode "id").
Proof.
  exact (proj1 (visit_member_content (sample_field "id" Integer) _ eq_refl)).
Defined.

(** X12: every type node of every exported definition, of a field or of
    an argument, is a well-formed type: a name, a list or a non-null
    wrapper, never a bare string or pair and never a non-null wrapper
    directly on another. *)
Theorem visit_graph_well_formed_types (g : Graph) (defs : list definition) :
  Exporter.visit_graph g = Ok defs →
  Forall (λ d, Forall (λ t, well_formed_type t = true) (definition_types d))
    defs.
Proof.
  unfold Exporter.visit_graph. intros (records & Hr & H)%bind_Ok_inv.
  apply bind_Ok_inv in H as (nodes & Hn & [= <-]).
  constructor; [constructor|]. apply Forall_app. split.
  - apply mapM_Ok in Hr. eapply Forall2_Forall_r; [exact Hr|].
    apply Forall_forall. intros [type_name type_] _ d.
    apply visit_record_well_formed.
  - apply mapM_Ok in Hn. eapply Forall2_Forall_r; [exact Hn|].
    apply Forall_forall. intros i _ d. apply visit_item_well_formed.
Qed.

Lemma visit_graph_well_formed_types_witness :
  ∃ defs,
    Exporter.visit_graph sample_graph = Ok defs ∧
    Forall (λ d, Forall (λ t, well_formed_type t = true) (definition_types d))
      defs.
Proof.
  eexists. split; [reflexivity|].
  exact (visit_graph_well_formed_types sample_graph _ eq_refl).
Defined.

(** ** The name-keyed views of the graph *)

Lemma filter_fmap_comm {A B} (f : A → B) (P : B → Prop)
    `{!∀ y, Decision (P y)} (l : list A) :
  filter P (f <$> l) = f <$> filter (λ x, P (f x)) l.
Proof.
  induction l as [|x l IH]; [done|].
  rewrite fmap_cons, !filter_cons, IH. by case_decide.
Qed.

Lemma filter_none {A} (P : A → Prop) `{!∀ x, Decision (P x)} (l : list A) :
  (∀ x, ¬ P x) → filter P l = [].
Proof.
  intros HP. induction l as [|x l IH]; [done|].
  by rewrite filter_cons_False.
Qed.

Lemma filter_all {A} (P : A → Prop) `{!∀ x, Decision (P x)} (l : list A) :
  filter P l = l ↔ Forall P l.
Proof.
  split.
  - intros Heq. apply Forall_forall. intros x Hx. rewrite <- Heq in Hx.
    by apply list_elem_of_filter in Hx as [? _].
  - induction 1 as [|x l Hx _ IH]; [done|]. by rewrite filter_cons_True, IH.
Qed.

Lemma list_to_map_lookup_head {V} (l : list (string * V)) (k : string) :
  (list_to_map l : gmap string V) !! k
  = head (snd <$> filter (λ p, p.1 = k) l).
Proof.
  induction l as [|[j y] l IH]; [done|].
  rewrite list_to_map_cons, filter_cons. simpl. case_decide as Hj.
  - subst j. by rewrite lookup_insert_eq.
  - by rewrite lookup_insert_ne.
Qed.

(** A dictionary built from pairs answers with the value of the last pair
    that has the key. *)
Lemma dict_of_pairs_lookup {V} (pairs : list (string * V)) (k : string) :
  dict_of_pairs pairs !! k = last (snd <$> filter (λ p, p.1 = k) pairs).
Proof.
  unfold dict_of_pairs.
  by rewrite list_to_map_lookup_head, filter_reverse, fmap_reverse,
    head_reverse.
Qed.

Lemma dict_of_named_lookup {V} (name : V → string) (l : list V) (k : string) :
  dict_of_pairs ((λ x, (name x, x)) <$> l) !! k
  = last (filter (λ x, name x = k) l).
Proof.
  rewrite dict_of_pairs_lookup, filter_fmap_comm, <- list_fmap_compose.
  simpl. by rewrite list_fmap_id.
Qed.

Lemma edges_map_lookup g n :
  edges_map g !! n = last (filter (λ e, item_name e = Some n) (items g)).
Proof.
  unfold edges_map, edges. rewrite dict_of_pairs_lookup. f_equal.
  induction (items g) as [|e l IH]; [done|].
  rewrite !(filter_cons _ e). destruct (item_name e) as [name|] eqn:He.
  - rewrite decide_True by done. simpl. rewrite He. simpl.
    rewrite filter_cons. simpl.
    destruct (decide (name = n)) as [->|Hne].
    + rewrite decide_True by done. rewrite fmap_cons. simpl. f_equal.
      exact IH.
    + rewrite decide_False by congruence. exact IH.
  - rewrite decide_False by (intros H; by apply H).
    rewrite decide_False by done. exact IH.
Qed.

(** X13: [Graph.edges_map] answers a name with the last item of the graph
    that bears it, and with nothing when no item does: an item declared
    later silently replaces an earlier one of the same name, and nameless
    items are never in the dictionary. *)
Theorem edges_map_last_wins (g : Graph) (n : string) :
  edges_map g !! n = last (filter (λ e, item_name e = Some n) (items g)).
Proof. apply edges_map_lookup. Qed.

(** X14: [fields_map] of an item and [options_map] of a field or a link
    answer a name with the last field, or option, of that name in
    declaration order, and with nothing when there is none. *)
Theorem fields_map_options_map_last_wins (k : string) :
  (∀ i, fields_map i !! k
        = last (filter (λ m, member_name m = k) (item_fields i))) ∧
  (∀ f, options_map f !! k
        = last (filter (λ o, option_name o = k) (field_options f))) ∧
  (∀ l, link_options_map l !! k
        = last (filter (λ o, option_name o = k) (link_options l))).
Proof.
  split; [|split]; intros x.
  - apply (dict_of_named_lookup member_name).
  - apply (dict_of_named_lookup option_name).
  - apply (dict_of_named_lookup option_name).
Qed.

(** ** Stripping, the root and the named items *)

Section strip_graph_more.
Import _StripGraph.

Lemma reserved_field_visit_item i m :
  reserved_field (visit_item i) m ↔ reserved_field i m.
Proof. by destruct i. Qed.

Lemma item_fields_visit_item_reserved i :
  item_fields (visit_item i)
  = filter (λ m, ¬ reserved_field i m) (item_fields i).
Proof.
  rewrite item_fields_visit_item.
  destruct i as [n|r]; simpl; apply list_filter_iff; intros m;
    unfold node_skip, root_skip;
    rewrite str_in_spec, !elem_of_cons, elem_of_nil; tauto.
Qed.

Lemma clean_item_visit_item i :
  ¬ introspection_item i → clean_item (visit_item i).
Proof.
  intros Hi. split; [eauto using introspection_item_visit_item|].
  rewrite item_fields_visit_item_reserved. apply Forall_forall.
  intros m [Hm _]%list_elem_of_filter. by rewrite reserved_field_visit_item.
Qed.

Lemma visit_item_clean i : clean_item i → visit_item i = i.
Proof.
  intros [_ Hf]. apply (proj2 (filter_all _ _)) in Hf.
  rewrite <- item_fields_visit_item_reserved in Hf.
  destruct i as [[]|[]]; simpl in *; unfold visit_node, visit_root; simpl;
    by rewrite Hf.
Qed.

Lemma visit_graph_clean g : clean_graph (visit_graph g).
Proof.
  unfold clean_graph. rewrite visit_graph_items. apply Forall_fmap.
  apply Forall_forall. intros i [Hi _]%list_elem_of_filter.
  by apply clean_item_visit_item.
Qed.

Lemma visit_graph_of_clean g : clean_graph g → visit_graph g = g.
Proof.
  intros Hc. destruct g as [its dts]. unfold visit_graph.
  simpl in *. f_equal. unfold clean_graph in Hc. simpl in Hc.
  assert (filter (λ n, ¬ graph_skip n) its = its) as ->.
  { apply filter_all. eapply Forall_impl; [exact Hc|].
    intros i [Hi _]. by rewrite graph_skip_spec. }
  rewrite <- (list_fmap_id its) at 2. apply list_fmap_ext.
  intros k i Hk. apply visit_item_clean.
  eapply Forall_forall; [exact Hc|]. by eapply list_elem_of_lookup_2.
Qed.

Lemma visit_graph_twice g : visit_graph (visit_graph g) = visit_graph g.
Proof. apply visit_graph_of_clean, visit_graph_clean. Qed.

End strip_graph_more.

(** X15: the graphs the stripping returns unchanged are exactly the clean
    ones: those with no introspection item, no field named [__typename]
    and no field named [_entities] in a root. On any other graph it
    removes something. *)
Theorem strip_graph_fixed_iff_clean (g : Graph) :
  _StripGraph.visit_graph g = g ↔ clean_graph g.
Proof.
  split.
  - intros <-. apply visit_graph_clean.
  - apply visit_graph_of_clean.
Qed.

(** X16: the [root] of a stripped graph has no field named [__typename]
    and none named [__schema], and every field it has is a field of the
    [root] of the graph before stripping. *)
Theorem root_of_stripped_graph (g : Graph) (m : Member) :
  m ∈ root_fields (root (_StripGraph.visit_graph g)) →
  member_name m ≠ "__typename" ∧ member_name m ≠ "__schema" ∧
  m ∈ root_fields (root g).
Proof.
  unfold root at 1. simpl.
  intros (fs & Hm & Hfs)%list_elem_of_join.
  apply list_elem_of_fmap in Hfs as (i' & -> & Hi').
  apply list_elem_of_filter in Hi' as [Hname Hi'].
  pose proof (visit_graph_clean g) as Hc.
  assert (clean_item i') as [Hintro Hres].
  { eapply Forall_forall; [exact Hc | exact Hi']. }
  split; [|split].
  - intros Heq. eapply Forall_forall in Hres; [|exact Hm].
    apply Hres. destruct i'; simpl; auto.
  - intros Heq. apply Hintro. unfold introspection_item. rewrite Hname.
    apply list_elem_of_fmap. eauto.
  - apply list_elem_of_fmap in Hi' as (i & -> & Hi).
    apply list_elem_of_filter in Hi as [_ Hi].
    rewrite item_name_visit_item in Hname.
    unfold root. simpl. apply list_elem_of_join.
    exists (item_fields i). split.
    + by apply item_fields_visit_item_elem.
    + apply list_elem_of_fmap. exists i. split; [done|].
      by apply list_elem_of_filter.
Qed.

Lemma root_of_stripped_graph_witness :
  member_name (sample_field "version" String) ≠ "__typename" ∧
  member_name (sample_field "version" String) ≠ "__schema" ∧
  sample_field "version" String ∈ root_fields (root sample_introspection_graph).
Proof.
  apply (root_of_stripped_graph sample_introspection_graph).
  vm_compute. apply list_elem_of_here.
Defined.

(** X17: looking a name up in [edges_map] of the stripped graph gives
    nothing for a name that starts with two underscores, and for any
    other name the stripped form of what the lookup gives in the graph
    before stripping. *)
Theorem edges_map_of_stripped_graph (g : Graph) (n : string) :
  edges_map (_StripGraph.visit_graph g) !! n
  = if String.prefix "__" n then None
    else _StripGraph.visit_item <$> edges_map g !! n.
Proof.
  rewrite !edges_map_lookup, visit_graph_items, filter_fmap_comm, fmap_last.
  rewrite list_filter_filter.
  destruct (String.prefix "__" n) eqn:Hp.
  - rewrite filter_none; [done|]. intros i [Hn Hi]. apply Hi.
    rewrite item_name_visit_item in Hn.
    unfold introspection_item. by rewrite Hn.
  - f_equal. f_equal. apply list_filter_iff. intros i.
    rewrite item_name_visit_item. split; [by intros [? _]|].
    intros Hn. split; [done|]. unfold introspection_item. rewrite Hn.
    by rewrite Hp.
Qed.

(** ** The document *)

Lemma forallb_true_Forall {A} (f : A → bool) (l : list A) :
  forallb f l = true ↔ Forall (λ x, f x = true) l.
Proof.
  split; [apply forallb_Forall_true|].
  induction 1 as [|x l Hx _ IH]; simpl; [done|]. by rewrite Hx, IH.
Qed.


Section get_ast_more.
Import _StripGraph.

Lemma exportable_item_visit_item i :
  exportable_item i = true → exportable_item (visit_item i) = true.
Proof.
  assert (∀ (P : Member → Prop) `{!∀ m, Decision (P m)} l,
            forallb exportable_member l = true →
            forallb exportable_member
              (GraphTransformer.visit_member <$> filter P l) = true) as Hf.
  { intros P ? l Hl%forallb_true_Forall.
    rewrite transformer_visit_members_id. apply forallb_true_Forall.
    apply Forall_forall. intros m [_ Hm]%list_elem_of_filter.
    eapply Forall_forall in Hl; [exact Hl | exact Hm]. }
  destruct i as [n|r]; simpl.
  - intros [Hm Hd]%andb_prop. by rewrite Hf, Hd.
  - apply Hf.
Qed.

Lemma exportable_graph_visit_graph g :
  exportable_graph g = true → exportable_graph (visit_graph g) = true.
Proof.
  unfold exportable_graph. simpl. intros [Hr Hi]%andb_prop. rewrite Hr. simpl.
  apply forallb_true_Forall in Hi. apply forallb_true_Forall.
  apply Forall_fmap, Forall_forall. intros i [_ Hin]%list_elem_of_filter.
  apply exportable_item_visit_item.
  eapply Forall_forall in Hi; [exact Hi | exact Hin].
Qed.

Lemma get_ast_is_Ok g :
  is_Ok (get_ast g) = exportable_graph (visit_graph g).
Proof.
  unfold get_ast. simpl. rewrite (bind_is_Ok_eq _ _ true) by done.
  by rewrite andb_true_r, visit_graph_is_Ok.
Qed.


End get_ast_more.

(** X18: exporting a graph and exporting its stripped form give the same
    document, or the same exception: [get_ast] strips again what is
    already stripped, which changes nothing. *)
Theorem get_ast_of_stripped_graph (g : Graph) :
  get_ast (_StripGraph.visit_graph g) = get_ast g.
Proof. unfold get_ast. simpl. by rewrite visit_graph_twice. Qed.

(** X19: [get_ast] returns exactly when the stripped graph holds nothing
    the encoders reject; what stripping removes cannot make it fail, so a
    graph that can be exported as it is can be exported through
    [get_ast]. *)
Theorem get_ast_Ok_iff (g : Graph) :
  is_Ok (get_ast g) = exportable_graph (_StripGraph.visit_graph g) ∧
  (exportable_graph g = true → is_Ok (get_ast g) = true).
Proof.
  split; [apply get_ast_is_Ok|].
  intros Hg. rewrite get_ast_is_Ok. by apply exportable_graph_visit_graph.
Qed.

(** Unsupported types in what stripping removes do not stop the export. *)
Example get_ast_sample_unsupported_graph :
  exportable_graph sample_unsupported_graph = false ∧
  get_ast sample_unsupported_graph
  = Ok {| definitions :=
       [ ScalarTypeDefinitionNode (Some (NameNode "Any"));
         ObjectTypeExtensionNode (Some (NameNode "Query"))
           [ FieldDefinitionNode (Some (NameNode "version"))
               (NonNullTypeNode (NameNode "String")) (Some []) (Some []) ]
           [] ] |}.
Proof. split; vm_compute; reflexivity. Qed.



(** The data types are exported as they are, reserved names included. *)
Example get_ast_data_type_not_stripped :
  get_ast {| items := [];
             data_types := [("__Meta", [("__typename", String)])] |}
  = Ok {| definitions :=
       [ ScalarTypeDefinitionNode (Some (NameNode "Any"));
         ObjectTypeDefinitionNode (Some (NameNode "__Meta"))
           [ FieldDefinitionNode (Some (NameNode "__typename"))
               (NonNullTypeNode (NameNode "String")) None None ]
           None ] |}.
Proof. vm_compute. reflexivity. Qed.

(** ** The option-type encoder *)

(** X21: [_encode_option_type] looks through every [Optional] and keeps
    no trace of it: below them, [Integer] and [String] give a named type
    and a [Sequence] a list of the encoded item, never under a non-null
    wrapper; anything else raises the [TypeError] of the unsupported option
    type, printed for the type below the wrappers. *)
Theorem encode_option_type_strip_Optional
    (type_repr : TypeExpr → string) (value : TypeExpr) :
  _encode_option_type type_repr value
  = match strip_Optional value with
    | Integer => Ok (NamedTypeNode (Some (NameNode "Int")))
    | String => Ok (NamedTypeNode (Some (NameNode "String")))
    | Sequence item =>
        node ← _encode_type item; Ok (TypeNode (ListTypeNode node))
    | t => Raise (TypeError ("Unsupported option type: " ++ type_repr t))
    end
  ∧ is_Optional (strip_Optional value) = false.
Proof.
  induction value as [t IH|n| | | |item _| | | |r]; simpl; try done.
Qed.
